(** * Elevation pass over graph tiles ([mjolnir/elevationbuilder.cc])

    A shallow embedding of the three routines of the file,
    [add_elevations_to_single_tile], [add_elevations_to_multiple_tiles] and
    [ElevationBuilder::Build], together with the properties the design
    document states about them.

    Doubles are IEEE binary64 values (Rocq's primitive floats), 32-bit
    unsigned integers are [Z], the geo attribute cache is a finite map keyed by
    the EdgeInfo offset.  Calls that leave the file (the height service, the
    weighted-grade routine, [set_mean_elevation]) are recorded in a call log so
    that "how often" and "with which arguments" can be stated. *)

From Stdlib Require Import ZArith Floats Uint63 Lia.
From stdpp Require Import gmap list strings pretty.

Local Open Scope Z_scope.
#[local] Set Warnings "-inexact-float,-clear-no-such-hyp".

(** ** C++ conversions used by the pass *)

Module Cxx.

(** [uint32_t] to [double]: exact for every 32-bit value. *)
Definition double_of_uint32 (n : Z) : float :=
  PrimFloat.of_uint63 (Uint63.of_Z n).

(** [double] to [float]: rounding to the nearest binary32 value, ties to
    even.  The result is kept as a binary64 value, which holds every
    binary32 value exactly. *)
Definition float_of_double (x : float) : float :=
  SF2Prim match Prim2SF x with
          | S754_finite s m e => binary_round 24 128 s m e
          | y => y
          end.

(** The signed integer [±m] of a finite value [±m * 2^e]. *)
Definition signed (s : bool) (m : positive) : Z :=
  if s then Z.neg m else Z.pos m.

(** Integer part of a double, rounding toward zero; [None] for NaN and the
    infinities. *)
Definition truncate (x : float) : option Z :=
  match Prim2SF x with
  | S754_zero _ => Some 0
  | S754_finite s m e =>
      Some (if 0 <=? e then signed s m * 2 ^ e
            else Z.quot (signed s m) (2 ^ (- e)))
  | _ => None
  end.

(** Greatest integer below a double; [None] for NaN and the infinities. *)
Definition floor (x : float) : option Z :=
  match Prim2SF x with
  | S754_zero _ => Some 0
  | S754_finite s m e =>
      Some (if 0 <=? e then signed s m * 2 ^ e
            else Z.div (signed s m) (2 ^ (- e)))
  | _ => None
  end.

(** [static_cast<uint32_t>(x)] for a double [x]: the fractional part is
    discarded; the behaviour is undefined ([None]) when the truncated value
    is not a [uint32_t]. *)
Definition static_cast_uint32 (x : float) : option Z :=
  z ← truncate x;
  if (0 <=? z) && (z <? 2 ^ 32) then Some z else None.

End Cxx.

(** ** Graph data read and written by the pass *)

(** [baldr::Use].  The enumeration is declared in [graphconstants.h]; the pass
    only asks whether the use is [kFerry], every other enumerator is kept by
    its code. *)
Inductive Use :=
| kFerry
| kOtherUse (code : N).

Definition is_ferry (u : Use) : bool :=
  match u with kFerry => true | kOtherUse _ => false end.

(** [baldr::DirectedEdge], restricted to the attributes the pass touches.
    The field names carry a [de_] prefix where the accessor's name is taken
    ([length], [forward]). *)
Record DirectedEdge := mkDirectedEdge {
  de_length : Z;            (* length(), uint32_t, metres *)
  tunnel : bool;
  bridge : bool;
  use : Use;
  de_forward : bool;        (* forward(): same direction as the shape *)
  edgeinfo_offset : Z;      (* uint32_t *)
  weighted_grade_ : Z;
  max_up_slope_ : float;
  max_down_slope_ : float
}.

(** Modelled from the spec: the three setters of the DirectedEdgeRecord
    ("Fields written: weighted-grade bucket, max-up-slope, max-down-slope");
    their bodies live in [baldr/directededge.cc].  Each one stores the value
    it is applied to. *)
Definition set_weighted_grade (factor : Z) (de : DirectedEdge) : DirectedEdge :=
  mkDirectedEdge (de_length de) (tunnel de) (bridge de) (use de) (de_forward de)
    (edgeinfo_offset de) factor (max_up_slope_ de) (max_down_slope_ de).

Definition set_max_up_slope (slope : float) (de : DirectedEdge) : DirectedEdge :=
  mkDirectedEdge (de_length de) (tunnel de) (bridge de) (use de) (de_forward de)
    (edgeinfo_offset de) (weighted_grade_ de) slope (max_down_slope_ de).

Definition set_max_down_slope (slope : float) (de : DirectedEdge) : DirectedEdge :=
  mkDirectedEdge (de_length de) (tunnel de) (bridge de) (use de) (de_forward de)
    (edgeinfo_offset de) (weighted_grade_ de) (max_up_slope_ de) slope.

(** The triple a directed edge carries after the pass. *)
Definition written (de : DirectedEdge) : Z * float * float :=
  (weighted_grade_ de, max_up_slope_ de, max_down_slope_ de).

(** How many meters to resample shape to when checking elevations. *)
Definition POSTING_INTERVAL : Z := 60.

(** Do not compute grade for intervals less than 10 meters. *)
Definition kMinimumInterval : Z := 10.

(** [(weighted grade, max up slope, max down slope, mean elevation)], the
    result type of [skadi::weighted_grade]. *)
Definition grades_t : Type := float * float * float * float.

Definition get0 (g : grades_t) : float := g.1.1.1.
Definition get1 (g : grades_t) : float := g.1.1.2.
Definition get2 (g : grades_t) : float := g.1.2.
Definition get3 (g : grades_t) : float := g.2.

Definition zero_grades : grades_t := (0, 0, 0, 0)%float.

(** One entry of [cache_t]: forward and reverse grade bucket ([uint32_t]),
    then forward max up, forward max down, reverse max up, reverse max down
    ([float]). *)
Record entry_t := mkEntry {
  forward_grade : Z;
  reverse_grade : Z;
  forward_max_up : float;
  forward_max_down : float;
  reverse_max_up : float;
  reverse_max_down : float
}.

(** [static_cast<uint32_t>(grade * .6 + 6.5)] *)
Definition grade_bucket (grade : float) : option Z :=
  Cxx.static_cast_uint32 (grade * 0.6 + 6.5)%float.

(** The bucket of a flat edge: the bucket of grade zero. *)
Definition flat_bucket : Z := 6.

(** The triple a directed edge takes from its cache entry: the forward one
    if the edge runs along the shape, the reverse one otherwise. *)
Definition select (forward : bool) (e : entry_t) : Z * float * float :=
  if forward then (forward_grade e, forward_max_up e, forward_max_down e)
  else (reverse_grade e, reverse_max_up e, reverse_max_down e).

(** Lines 122-128: the three setters, applied to what [found] points at. *)
Definition apply_entry (found : entry_t) (directededge : DirectedEdge) : DirectedEdge :=
  let forward := de_forward directededge in
  let '(grade, max_up_slope, max_down_slope) := select forward found in
  set_max_down_slope max_down_slope
    (set_max_up_slope max_up_slope
       (set_weighted_grade grade directededge)).

(** [cache_t], the geo attribute cache, keyed by EdgeInfo offset. *)
Abbreviation cache_t := (gmap Z entry_t).

(** [std::unordered_map::clear]: every element is erased, none is kept. *)
Definition clear (c : cache_t) : cache_t :=
  filter (λ _ : Z * entry_t, False) c.

(** ** The per-tile routine *)

Section ElevationBuilder.

(** [midgard::PointLL] and the collaborators the routine calls:
    the polyline resampler, the height service ([sample->get_all]), the
    weighted-grade routine of [skadi/util.h], and the two no-data
    constants ([skadi::get_no_data_value()], [baldr::kNoElevationData]). *)
Context {PointLL : Type}.
Variable resample_spherical_polyline : list PointLL → float → list PointLL.
Variable get_all : list PointLL → list float.
Variable weighted_grade : list float → float → grades_t.
Variable get_no_data_value : float.
Variable kNoElevationData : float.

(** Calls that leave the routine. *)
Inductive Call :=
| GetAll (points : list PointLL)
| WeightedGrade (heights : list float) (interval : float)
| SetMeanElevation (offset : Z) (mean : float).

Definition is_GetAll (c : Call) : bool :=
  match c with GetAll _ => true | _ => false end.
Definition is_WeightedGrade (c : Call) : bool :=
  match c with WeightedGrade _ _ => true | _ => false end.

(** The points handed to the height service and the interval handed to the
    grade routine (lines 73-81).  [length] is a [uint32_t] and both
    thresholds are integral, so the comparisons, which C++ makes after an
    exact conversion to [double], are written on [Z].  [front()] and
    [back()] of an empty shape are undefined. *)
Definition sampling (de : DirectedEdge) (shape : list PointLL)
  : option (list PointLL * float) :=
  if (de_length de <? POSTING_INTERVAL * 3) || bridge de then
    front ← head shape;
    back ← last shape;
    Some ([front; back], Cxx.double_of_uint32 (de_length de))
  else
    Some (resample_spherical_polyline shape (Cxx.double_of_uint32 POSTING_INTERVAL),
          Cxx.double_of_uint32 POSTING_INTERVAL).

(** Grade estimation and max slopes (lines 69-100): the forward and the
    reverse tuple, and the calls made on the way. *)
Definition estimate_grades (de : DirectedEdge) (shape : list PointLL)
  : option (grades_t * grades_t * list Call) :=
  if negb (tunnel de) && negb (is_ferry (use de)) then
    '(resampled, interval) ← sampling de shape;
    let heights := get_all resampled in
    let grades := weighted_grade heights interval in
    if de_length de <? kMinimumInterval then
      Some ((0, 0, 0, get3 grades)%float, (0, 0, 0, get3 grades)%float,
            [GetAll resampled; WeightedGrade heights interval])
    else
      Some (grades, weighted_grade (rev heights) interval,
            [GetAll resampled; WeightedGrade heights interval;
             WeightedGrade (rev heights) interval])
  else Some (zero_grades, zero_grades, []).

(** The value handed to [set_mean_elevation] (lines 113-117). *)
Definition stored_mean (forward_grades : grades_t) : float :=
  let mean_elevation := Cxx.float_of_double (get3 forward_grades) in
  if PrimFloat.eqb mean_elevation get_no_data_value
  then kNoElevationData else mean_elevation.

(** The cache entry built from the two tuples (lines 103-109). *)
Definition make_entry (forward_grades reverse_grades : grades_t) : option entry_t :=
  fg ← grade_bucket (get0 forward_grades);
  rg ← grade_bucket (get0 reverse_grades);
  Some (mkEntry fg rg
          (Cxx.float_of_double (get1 forward_grades))
          (Cxx.float_of_double (get2 forward_grades))
          (Cxx.float_of_double (get1 reverse_grades))
          (Cxx.float_of_double (get2 reverse_grades))).

(** The whole body of [if (found == cache.cend())] for one directed edge:
    the new cache entry, the mean elevation stored for the offset and the
    calls made, [set_mean_elevation] last. *)
Definition cache_miss (de : DirectedEdge) (shape : list PointLL)
  : option (entry_t * float * list Call) :=
  '(forward_grades, reverse_grades, calls) ← estimate_grades de shape;
  e ← make_entry forward_grades reverse_grades;
  let mean := stored_mean forward_grades in
  Some (e, mean, calls ++ [SetMeanElevation (edgeinfo_offset de) mean]).

(** The tile as [GraphTileBuilder] exposes it to the routine. *)
Record Tile := mkTile {
  directededges : list DirectedEdge;
  shapes : gmap Z (list PointLL);   (* edgeinfo(..).shape(), by offset *)
  mean_elevations : gmap Z float;   (* per EdgeInfo, by offset *)
  has_elevation : bool
}.

(** State carried through the loop over the directed edges. *)
Record Loop := mkLoop {
  cache : cache_t;
  means : gmap Z float;
  log : list (nat * Call)           (* calls, with the index [i] making them *)
}.

(** One iteration of the loop (lines 56-128), for directed edge [i]. *)
Definition visit (tile_shapes : gmap Z (list PointLL))
    (i : nat) (directededge : DirectedEdge) (st : Loop)
  : option (DirectedEdge * Loop) :=
  let edge_info_offset := edgeinfo_offset directededge in
  '(found, st') ←
    match cache st !! edge_info_offset with
    | Some found => Some (found, st)
    | None =>
        shape ← tile_shapes !! edge_info_offset;
        '(e, mean, calls) ← cache_miss directededge shape;
        Some (e, mkLoop (<[edge_info_offset := e]> (cache st))
                        (<[edge_info_offset := mean]> (means st))
                        (log st ++ (pair i <$> calls)))
    end;
  Some (apply_entry found directededge, st').

(** [for (uint32_t i = 0; i < count; ++i)], from index [i] on. *)
Fixpoint visit_from (tile_shapes : gmap Z (list PointLL))
    (i : nat) (edges : list DirectedEdge) (st : Loop)
  : option (list DirectedEdge * Loop) :=
  match edges with
  | [] => Some ([], st)
  | directededge :: rest =>
      '(directededge', st') ← visit tile_shapes i directededge st;
      '(rest', st'') ← visit_from tile_shapes (S i) rest st';
      Some (directededge' :: rest', st'')
  end.

(** [add_elevations_to_single_tile] on an opened tile: the worker's cache
    comes in, is cleared (line 51), and goes out as the loop leaves it.  The result is
    the stored tile, the cache and the call log.  [cache.reserve] changes no
    lookup; the trim of the worker's [GraphReader] after [StoreTileData]
    touches neither the tile nor the cache and is left out. *)
Definition add_elevations_to_single_tile (cache_in : cache_t) (tile : Tile)
  : option (Tile * cache_t * list (nat * Call)) :=
  let cleared := clear cache_in in
  '(edges', st) ← visit_from (shapes tile) 0 (directededges tile)
                     (mkLoop cleared (mean_elevations tile) []);
  Some (mkTile edges' (shapes tile) (means st) true, cache st, log st).

(** ** The worker loop and the shared queue *)

(** [baldr::GraphId], by its 64-bit value. *)
Definition GraphId : Type := Z.

(** Where a worker stands in [add_elevations_to_multiple_tiles]: at the head
    of [while (true)] (before [lock.lock()]), past [lock.unlock()] with the
    tile id it took from the queue, or returned from the function. *)
Inductive Status :=
| AtLoopHead
| Popped (tile_id : GraphId)
| Returned.

(** One worker thread: its position, its private [geo_attribute_cache], and
    two histories kept for the statements below: the ids it took from the
    queue and the ids whose tile it has stored, both in order. *)
Record Worker := mkWorker {
  status : Status;
  geo_attribute_cache : cache_t;
  popped : list GraphId;
  processed : list GraphId
}.

(** The state shared by the threads [Build] starts: the deque, the threads,
    and the tile directory the [GraphTileBuilder]s read and write. *)
Record Pool := mkPool {
  tilequeue : list GraphId;
  workers : list Worker;
  tile_dir : gmap GraphId Tile
}.

(** What thread [k] does between two points where other threads may run:
    the critical section of the loop (lines 160-168), in which it finds the
    queue empty and leaves, or takes the front id; or the call of
    [add_elevations_to_single_tile] on the id it holds.  The call is one
    step: it reads and writes the tile of that id only, and two threads hold
    the same id only if the list names it twice.  A thread whose tile is
    missing, or whose call is undefined, has no step. *)
Inductive step (p : Pool) : Pool → Prop :=
| step_empty k w :
    workers p !! k = Some w →
    status w = AtLoopHead →
    tilequeue p = [] →
    step p (mkPool (tilequeue p)
              (<[k := mkWorker Returned (geo_attribute_cache w) (popped w) (processed w)]>
                 (workers p))
              (tile_dir p))
| step_pop k w tile_id rest :
    workers p !! k = Some w →
    status w = AtLoopHead →
    tilequeue p = tile_id :: rest →
    step p (mkPool rest
              (<[k := mkWorker (Popped tile_id) (geo_attribute_cache w)
                        (popped w ++ [tile_id]) (processed w)]> (workers p))
              (tile_dir p))
| step_tile k w tile_id tile tile' cache' calls :
    workers p !! k = Some w →
    status w = Popped tile_id →
    tile_dir p !! tile_id = Some tile →
    add_elevations_to_single_tile (geo_attribute_cache w) tile
      = Some (tile', cache', calls) →
    step p (mkPool (tilequeue p)
              (<[k := mkWorker AtLoopHead cache' (popped w)
                        (processed w ++ [tile_id])]> (workers p))
              (<[tile_id := tile']> (tile_dir p))).

(** Any number of steps. *)
Inductive steps : Pool → Pool → Prop :=
| steps_refl p : steps p p
| steps_step p q r : steps p q → step q r → steps p r.

(** The pool as [Build] starts it: [nthreads] fresh workers on the queue. *)
Definition start (tile_ids : list GraphId) (nthreads : nat)
    (dir : gmap GraphId Tile) : Pool :=
  mkPool tile_ids (replicate nthreads (mkWorker AtLoopHead ∅ [] [])) dir.

(** Every thread has returned: what the [join] loop waits for. *)
Definition joined (p : Pool) : Prop :=
  Forall (λ w, status w = Returned) (workers p).

Definition all_popped (p : Pool) : list GraphId := concat (popped <$> workers p).
Definition all_processed (p : Pool) : list GraphId := concat (processed <$> workers p).

(** The id a worker has taken and not yet stored. *)
Definition holding (w : Worker) : list GraphId :=
  match status w with Popped tile_id => [tile_id] | _ => [] end.

(** Steps a worker is sure to have ahead of it, and the work left in a pool:
    three steps for every id in the queue (taking it, the tile, and what the
    taker does next), plus what every worker has ahead. *)
Definition ahead (s : Status) : nat :=
  match s with AtLoopHead => 1 | Popped _ => 2 | Returned => 0 end.

Definition work_left (p : Pool) : nat :=
  3 * length (tilequeue p) + sum_list ((λ w, ahead (status w)) <$> workers p).

(** What holds of the pool whatever the threads have done so far: the ids
    taken are the front of the list the pool started on, each worker has
    stored the tiles of the ids it took, but for the one it holds, and once
    a worker has returned the queue is empty. *)
Record drains (tile_ids : list GraphId) (nthreads : nat) (p : Pool) : Prop := {
  drains_workers : length (workers p) = nthreads;
  drains_front : ∃ taken, tile_ids = taken ++ tilequeue p ∧ all_popped p ≡ₚ taken;
  drains_stored : Forall (λ w, popped w = processed w ++ holding w) (workers p);
  drains_returned : Exists (λ w, status w = Returned) (workers p) → tilequeue p = []
}.

(** Runs counted by their steps. *)
Inductive steps_in : nat → Pool → Pool → Prop :=
| steps_in_O p : steps_in 0 p p
| steps_in_S n p q r : steps_in n p q → step q r → steps_in (S n) p r.

(** The number of threads that have returned. *)
Definition returned (s : Status) : nat :=
  match s with Returned => 1 | _ => 0 end.

Definition returned_count (p : Pool) : nat :=
  sum_list ((λ w, returned (status w)) <$> workers p).

Definition all_holding (p : Pool) : list GraphId := concat (holding <$> workers p).

(** ** [ElevationBuilder::Build] *)

(** The configuration keys [Build] reads from the property tree. *)
Record ptree := mkPtree {
  additional_data_elevation : option string;
  mjolnir_concurrency : option Z
}.

Inductive Message :=
| LOG_WARN (text : string)
| LOG_INFO (text : string).

(** The surroundings of a call of [Build]: which paths exist, what
    [std::thread::hardware_concurrency()] answers, the tile directory, the
    log, and the number of threads started so far. *)
Record World := mkWorld {
  path_exists : string → bool;
  hardware_concurrency : Z;
  tiles : gmap GraphId Tile;
  messages : list Message;
  threads_started : nat
}.

Definition add_message (m : Message) (w : World) : World :=
  mkWorld (path_exists w) (hardware_concurrency w) (tiles w)
    (messages w ++ [m]) (threads_started w).

(** [!elevation || !filesystem::exists( *elevation )] *)
Definition no_elevation (pt : ptree) (w : World) : bool :=
  match additional_data_elevation pt with
  | None => true
  | Some elevation => negb (path_exists w elevation)
  end.

Definition nthreads_of (pt : ptree) (w : World) : Z :=
  Z.max 1 (default (hardware_concurrency w) (mjolnir_concurrency pt)).

(** [Build] relates the world before the call to the world after it.  The
    second case leaves open the order [get_tile_ids] shuffles the tile set
    into and the interleaving of the threads. *)
Inductive Build (pt : ptree) (tile_ids : list GraphId) (w : World) : World → Prop :=
| Build_skipped :
    no_elevation pt w = true →
    Build pt tile_ids w
      (add_message (LOG_WARN "Elevation storage directory does not exist") w)
| Build_done ids p :
    no_elevation pt w = false →
    (if decide (tile_ids = []) then ids ≡ₚ elements (dom (tiles w))
     else ids = tile_ids) →
    steps (start ids (Z.to_nat (nthreads_of pt w)) (tiles w)) p →
    joined p →
    Build pt tile_ids w
      (mkWorld (path_exists w) (hardware_concurrency w) (tile_dir p)
         (messages w ++
            [LOG_INFO ("Adding elevation to " +:+ pretty (length ids) +:+
                       " tiles with " +:+ pretty (nthreads_of pt w) +:+
                       " threads...");
             LOG_INFO "Finished"])
         (threads_started w + Z.to_nat (nthreads_of pt w))).

End ElevationBuilder.

(** The directed edges the pass does not sample: tunnels and ferries. *)
Definition skipped (de : DirectedEdge) : Prop :=
  tunnel de = true ∨ use de = kFerry.

(** Two directed edges that agree on everything the pass reads. *)
Definition same_input (d d' : DirectedEdge) : Prop :=
  de_length d' = de_length d ∧ tunnel d' = tunnel d ∧ bridge d' = bridge d ∧
  use d' = use d ∧ de_forward d' = de_forward d ∧
  edgeinfo_offset d' = edgeinfo_offset d.

(** Two directed edges that refer to the same EdgeInfo in the same
    direction. *)
Definition same_reference (d d' : DirectedEdge) : Prop :=
  edgeinfo_offset d' = edgeinfo_offset d ∧ de_forward d' = de_forward d.

(** The EdgeInfo offsets the directed edges of a tile refer to. *)
Definition offsets_of (edges : list DirectedEdge) : gset Z :=
  list_to_set (edgeinfo_offset <$> edges).

(** What the zero-initialised tuple of line 70 leaves as mean elevation:
    [0.0f], unless that is the no-data value of the height service. *)
Definition mean_of_zero_tuple (get_no_data_value kNoElevationData : float) : float :=
  if PrimFloat.eqb 0 get_no_data_value then kNoElevationData else 0%float.

(** The first directed edge of the tile that refers to its EdgeInfo: no
    directed edge before index [j] has the same offset. *)
Definition first_of_offset (edges : list DirectedEdge) (j : nat) : Prop :=
  ∀ k dk dj, (k < j)%nat → edges !! k = Some dk → edges !! j = Some dj →
    edgeinfo_offset dk ≠ edgeinfo_offset dj.

(** The part of a call log made at index [j], and the part made for the
    directed edges that refer to the EdgeInfo at [offset]. *)
Definition calls_at {C : Type} (j : nat) (log : list (nat * C)) : list (nat * C) :=
  filter (λ ic, ic.1 = j) log.

Definition calls_for {C : Type} (edges : list DirectedEdge) (offset : Z)
    (log : list (nat * C)) : list (nat * C) :=
  filter (λ ic, edgeinfo_offset <$> edges !! ic.1 = Some offset) log.

(** How many of the logged calls satisfy [p]. *)
Definition count_calls {C : Type} (p : C → bool) (log : list (nat * C)) : nat :=
  length (filter (λ ic, p ic.2 = true) log).

(** ** A terrain and a grade routine to run the pass on

    Points are positions in metres along a straight road.  The ground rises
    by a tenth of a metre per metre up to position 120 and falls by a
    twentieth per metre after it.  The grade routine weights every rising
    section twice.  None of this is Valhalla's; it serves to evaluate the
    definitions above on inputs. *)

Module Hill.

Definition height (x : Z) : float :=
  if x <=? 120 then (Cxx.double_of_uint32 x / 10)%float
  else (12 - Cxx.double_of_uint32 (x - 120) / 20)%float.

Definition get_all (points : list Z) : list float := height <$> points.

Definition resample (shape : list Z) (interval : float) : list Z :=
  match head shape, last shape, Cxx.truncate interval with
  | Some a, Some b, Some d =>
      (λ k, a + Z.of_nat k * d) <$> seq 0 (S (Z.to_nat ((b - a) / d)))
  | _, _, _ => []
  end.

Fixpoint sections (heights : list float) : list float :=
  match heights with
  | a :: (b :: _) as rest => (b - a)%float :: sections rest
  | _ => []
  end.

Definition sum (xs : list float) : float := foldr PrimFloat.add 0%float xs.

Definition weight (grade : float) : float :=
  if PrimFloat.ltb 0 grade then 2%float else 1%float.

Definition larger (x y : float) : float := if PrimFloat.ltb x y then y else x.
Definition smaller (x y : float) : float := if PrimFloat.ltb x y then x else y.

Definition weighted_grade (heights : list float) (interval : float) : grades_t :=
  let grades := (λ d, d * (100 / interval))%float <$> sections heights in
  let total := sum ((λ g, g * weight g)%float <$> grades) in
  let weights := sum (weight <$> grades) in
  ((if PrimFloat.ltb 0 weights then total / weights else 0)%float,
   foldr larger 0%float grades,
   foldr smaller 0%float grades,
   (sum heights / Cxx.double_of_uint32 (Z.of_nat (length heights)))%float).

Definition no_data_value : float := (-32768)%float.
Definition kNoElevationData : float := 32768%float.

(** The per-tile routine, the pool and [Build] over this terrain. *)
Definition single_tile :=
  add_elevations_to_single_tile resample get_all weighted_grade
    no_data_value kNoElevationData.

Definition edge (length : Z) (is_tunnel is_bridge : bool) (u : Use)
    (forward : bool) (offset : Z) : DirectedEdge :=
  mkDirectedEdge length is_tunnel is_bridge u forward offset 0 0 0.

Definition road : Use := kOtherUse 0.

(** A 240 m road in both directions (EdgeInfo 0), a 5 m tunnel (EdgeInfo 16),
    an 8 m driveway (EdgeInfo 32), a 300 m bridge (EdgeInfo 48) and a 400 m
    ferry line (EdgeInfo 64). *)
Definition tile : Tile :=
  mkTile
    [edge 240 false false road true 0;
     edge 240 false false road false 0;
     edge 5 true false road true 16;
     edge 8 false false road true 32;
     edge 300 false true road false 48;
     edge 400 false false kFerry true 64]
    (list_to_map [(0, [0; 100; 240]); (16, [100; 105]); (32, [0; 8]);
                  (48, [0; 150; 300]); (64, [0; 400])])
    ∅ false.

(** [tile] with its second directed edge, the road of EdgeInfo 0 against the
    shape, marked as a 5 m tunnel on a bridge. *)
Definition odd_tile : Tile :=
  mkTile
    [edge 240 false false road true 0;
     edge 5 true true road false 0;
     edge 5 true false road true 16;
     edge 8 false false road true 32;
     edge 300 false true road false 48;
     edge 400 false false kFerry true 64]
    (shapes tile) ∅ false.

(** What the routine leaves of [odd_tile]. *)
Definition odd_tile_after : Tile :=
  match single_tile ∅ odd_tile with Some (t, _, _) => t | None => odd_tile end.

(** The 240 m road along its shape and, on the same EdgeInfo, an 8 m
    directed edge against it. *)
Definition short_second_tile : Tile :=
  mkTile
    [edge 240 false false road true 0;
     edge 8 false false road false 0]
    (list_to_map [(0, [0; 100; 240])]) ∅ false.

Definition short_second_after : Tile :=
  match single_tile ∅ short_second_tile with
  | Some (t, _, _) => t
  | None => short_second_tile
  end.
Definition short_second_cache : cache_t :=
  match single_tile ∅ short_second_tile with Some (_, c, _) => c | None => ∅ end.
Definition short_second_log : list (nat * Call) :=
  match single_tile ∅ short_second_tile with Some (_, _, l) => l | None => [] end.

(** What the routine leaves of [tile], starting from an empty cache. *)
Definition tile_after : Tile :=
  match single_tile ∅ tile with Some (t, _, _) => t | None => tile end.
Definition cache_after : cache_t :=
  match single_tile ∅ tile with Some (_, c, _) => c | None => ∅ end.
Definition log_after : list (nat * Call) :=
  match single_tile ∅ tile with Some (_, _, l) => l | None => [] end.

(** A tile directory of two tiles, and a pool of two threads on it. *)
Definition flat_tile : Tile :=
  mkTile [edge 400 false false kFerry true 0] (list_to_map [(0, [0; 400])]) ∅ false.

Definition dir : gmap GraphId Tile := list_to_map [(7, tile); (9, flat_tile)].

Definition pool_step :=
  step resample get_all weighted_grade no_data_value kNoElevationData.
Definition pool_steps :=
  steps resample get_all weighted_grade no_data_value kNoElevationData.
Definition build :=
  Build resample get_all weighted_grade no_data_value kNoElevationData.

Definition flat_tile_after : Tile :=
  match single_tile ∅ flat_tile with Some (t, _, _) => t | None => flat_tile end.
Definition flat_cache_after : cache_t :=
  match single_tile ∅ flat_tile with Some (_, c, _) => c | None => ∅ end.
Definition flat_log_after : list (nat * Call) :=
  match single_tile ∅ flat_tile with Some (_, _, l) => l | None => [] end.

(** The pool after both tiles are stored and both threads have returned. *)
Definition pool_end : Pool :=
  mkPool []
    [mkWorker Returned cache_after [7] [7];
     mkWorker Returned flat_cache_after [9] [9]]
    (<[7 := tile_after]> (<[9 := flat_tile_after]> dir)).

Definition pool_steps_in :=
  steps_in resample get_all weighted_grade no_data_value kNoElevationData.

(** One thread on a list that names tile 9 twice. *)
Definition pool_end_twice : Pool :=
  mkPool []
    [mkWorker Returned flat_cache_after [9; 9] [9; 9]]
    (<[9 := flat_tile_after]> (<[9 := flat_tile_after]> dir)).

(** The same two tiles done by one thread. *)
Definition pool_end_single : Pool :=
  mkPool []
    [mkWorker Returned flat_cache_after [7; 9] [7; 9]]
    (<[9 := flat_tile_after]> (<[7 := tile_after]> dir)).

(** A configuration with elevation data and two threads, a world in which
    every path exists, and that world after [Build] on the two tiles. *)
Definition elevation_config : ptree := mkPtree (Some "/data/elevation") (Some 2).

Definition world_with_elevation : World := mkWorld (λ _, true) 4 dir [] 0.

Definition world_after : World :=
  mkWorld (λ _, true) 4 (tile_dir pool_end)
    [LOG_INFO ("Adding elevation to " +:+ pretty 2%nat +:+ " tiles with " +:+
               pretty 2 +:+ " threads...");
     LOG_INFO "Finished"]
    2.

(** A configuration without elevation data, and a world to call [Build] in. *)
Definition no_elevation_config : ptree := mkPtree None (Some 2).

Definition world : World := mkWorld (λ _, false) 4 dir [] 0.

End Hill.

(** * Properties *)

(** ** The grade bucket *)

Lemma pow2_neg_exponent_pos (e : Z) : e < 0 → 0 < 2 ^ (- e).
Proof. intros He. apply Z.pow_pos_nonneg; lia. Qed.

(** Truncation and floor agree on values that are not negative; on a negative
    value that truncates to zero the floor is [-1]. *)
Lemma truncate_floor (x : float) (t : Z) :
  Cxx.truncate x = Some t → 0 ≤ t →
  ∃ f, Cxx.floor x = Some f ∧ (f = t ∨ (f = -1 ∧ t = 0)).
Proof.
  unfold Cxx.truncate, Cxx.floor.
  destruct (Prim2SF x) as [s | s | | s m e]; intros Ht Hpos; simplify_eq.
  - exists 0. auto.
  - destruct (Z.leb_spec 0 e) as [He | He].
    + eexists; split; [reflexivity | auto].
    + pose proof (pow2_neg_exponent_pos e He) as Hd.
      eexists; split; [reflexivity |].
      destruct s; simpl in *.
      * right.
        change (Z.neg m) with (- Z.pos m) in *.
        rewrite Z.quot_opp_l in * by lia.
        assert (Hq : 0 ≤ Z.quot (Z.pos m) (2 ^ (- e))) by (apply Z.quot_pos; lia).
        assert (Hz : Z.quot (Z.pos m) (2 ^ (- e)) = 0) by lia.
        split; [| lia].
        apply Z.quot_small_iff in Hz; [| lia].
        symmetry. apply (Z.div_unique _ _ _ (- Z.pos m + 2 ^ (- e))); lia.
      * left. symmetry. apply Z.quot_div_nonneg; lia.
Qed.

(** C3: the bucket stored for a weighted grade [g] is [g * 0.6 + 6.5] with its
    fractional part discarded, defined exactly when that integer is a
    [uint32_t]; it is the floor unless [g * 0.6 + 6.5] lies strictly between
    -1 and 0, where the bucket is 0.  Grade 0 gives 6, grade 15 gives 15,
    grade -10 gives 0, and nothing clamps the bucket to 0..15: grade 20
    gives 18. *)
Theorem grade_bucket_truncates :
  (∀ g b, grade_bucket g = Some b ↔
     Cxx.truncate (g * 0.6 + 6.5)%float = Some b ∧ 0 ≤ b < 2 ^ 32) ∧
  (∀ g b, grade_bucket g = Some b →
     ∃ f, Cxx.floor (g * 0.6 + 6.5)%float = Some f ∧ (f = b ∨ (f = -1 ∧ b = 0))) ∧
  grade_bucket 0 = Some flat_bucket ∧
  grade_bucket 15 = Some 15 ∧
  grade_bucket (-10) = Some 0 ∧
  grade_bucket 20 = Some 18.
Proof.
  assert (Hiff : ∀ g b, grade_bucket g = Some b ↔
     Cxx.truncate (g * 0.6 + 6.5)%float = Some b ∧ 0 ≤ b < 2 ^ 32).
  { intros g b. unfold grade_bucket, Cxx.static_cast_uint32.
    destruct (Cxx.truncate _) as [z |]; simpl;
      [| split; [discriminate | intros [? _]; discriminate]].
    destruct (Z.leb_spec 0 z), (Z.ltb_spec z (2 ^ 32)); simpl; split;
      first [ intros [= <-]; split; [reflexivity | lia]
            | intros [[= <-] ?]; first [reflexivity | lia]
            | discriminate ]. }
  split; [exact Hiff |].
  split; [| repeat split; vm_compute; reflexivity].
  intros g b [Ht Hb]%Hiff.
  apply (truncate_floor _ _ Ht). lia.
Qed.

Lemma grade_bucket_truncates_witness :
  ∃ f, Cxx.floor (20 * 0.6 + 6.5)%float = Some f ∧ (f = 18 ∨ (f = -1 ∧ 18 = 0)).
Proof.
  apply (proj1 (proj2 grade_bucket_truncates) 20%float 18).
  vm_compute. reflexivity.
Defined.

(** At grade -11 the expression is about -0.1: the cast gives 0, the floor
    is -1. *)
Lemma grade_bucket_is_not_floor :
  grade_bucket (-11) = Some 0 ∧
  Cxx.floor (-11 * 0.6 + 6.5)%float = Some (-1) ∧
  grade_bucket (-11) ≠ Cxx.floor (-11 * 0.6 + 6.5)%float.
Proof.
  split; [vm_compute; reflexivity |].
  split; [vm_compute; reflexivity |].
  vm_compute. discriminate.
Qed.

(** ** Lengths against the two thresholds

    The pass compares the [uint32_t] length with [POSTING_INTERVAL * 3] and
    with [kMinimumInterval] after converting it to [double]; [sampling] and
    [estimate_grades] compare on [Z].  On every length up to 4095 m the two
    comparisons give the same answer. *)
Lemma thresholds_on_doubles :
  forallb
    (λ n, Bool.eqb (PrimFloat.ltb (Cxx.double_of_uint32 n) (60 * 3))
                   (n <? POSTING_INTERVAL * 3)
          && Bool.eqb (PrimFloat.ltb (Cxx.double_of_uint32 n) 10)
                      (n <? kMinimumInterval))
    (Z.of_nat <$> seq 0 4096) = true.
Proof. vm_compute. reflexivity. Qed.

(** ** The cleared cache *)

Lemma clear_empty (c : cache_t) : clear c = ∅.
Proof.
  apply map_eq. intros o. rewrite lookup_empty.
  apply map_lookup_filter_None. right. intros e _ [].
Qed.

(** ** The cache-miss computation for one directed edge *)

Lemma make_entry_zero :
  make_entry zero_grades zero_grades = Some (mkEntry flat_bucket flat_bucket 0 0 0 0).
Proof. vm_compute. reflexivity. Qed.

Lemma make_entry_short (mean : float) :
  make_entry (0, 0, 0, mean)%float (0, 0, 0, mean)%float
  = Some (mkEntry flat_bucket flat_bucket 0 0 0 0).
Proof. vm_compute. reflexivity. Qed.

Lemma make_entry_Some (fg rg : grades_t) (e : entry_t) :
  make_entry fg rg = Some e →
  grade_bucket (get0 fg) = Some (forward_grade e) ∧
  grade_bucket (get0 rg) = Some (reverse_grade e) ∧
  forward_max_up e = Cxx.float_of_double (get1 fg) ∧
  forward_max_down e = Cxx.float_of_double (get2 fg) ∧
  reverse_max_up e = Cxx.float_of_double (get1 rg) ∧
  reverse_max_down e = Cxx.float_of_double (get2 rg).
Proof.
  unfold make_entry. intros He.
  destruct (grade_bucket (get0 fg)) as [f |]; [| discriminate].
  destruct (grade_bucket (get0 rg)) as [r |]; [| discriminate].
  simpl in He. injection He as <-. simpl. auto 10.
Qed.

Section Properties.

Context {PointLL : Type}.
Variable resample_spherical_polyline : list PointLL → float → list PointLL.
Variable get_all : list PointLL → list float.
Variable weighted_grade : list float → float → grades_t.
Variable get_no_data_value : float.
Variable kNoElevationData : float.

#[local] Abbreviation sampling' := (sampling resample_spherical_polyline).
#[local] Abbreviation estimate := 
  (estimate_grades resample_spherical_polyline get_all weighted_grade).
#[local] Abbreviation stored := (stored_mean get_no_data_value kNoElevationData).
#[local] Abbreviation miss :=
  (cache_miss resample_spherical_polyline get_all weighted_grade
     get_no_data_value kNoElevationData).
#[local] Abbreviation visit' :=
  (visit resample_spherical_polyline get_all weighted_grade
     get_no_data_value kNoElevationData).
#[local] Abbreviation visit_from' :=
  (visit_from resample_spherical_polyline get_all weighted_grade
     get_no_data_value kNoElevationData).
#[local] Abbreviation mean_of_zero :=
  (mean_of_zero_tuple get_no_data_value kNoElevationData).
#[local] Abbreviation single_tile :=
  (add_elevations_to_single_tile resample_spherical_polyline get_all
     weighted_grade get_no_data_value kNoElevationData).

Lemma stored_zero : stored zero_grades = mean_of_zero.
Proof.
  unfold stored_mean, mean_of_zero_tuple.
  replace (Cxx.float_of_double (get3 zero_grades)) with 0%float
    by (vm_compute; reflexivity).
  reflexivity.
Qed.

Lemma skipped_guard (de : DirectedEdge) :
  skipped de → negb (tunnel de) && negb (is_ferry (use de)) = false.
Proof.
  intros [Ht | Hu]; [rewrite Ht | rewrite Hu]; simpl; auto using andb_false_r.
Qed.

Lemma sampled_guard (de : DirectedEdge) :
  ¬ skipped de → negb (tunnel de) && negb (is_ferry (use de)) = true.
Proof.
  unfold skipped. intros Hn.
  destruct (tunnel de); [tauto |].
  destruct (use de); [tauto | reflexivity].
Qed.

Lemma estimate_skipped (de : DirectedEdge) (shape : list PointLL) :
  skipped de → estimate de shape = Some (zero_grades, zero_grades, []).
Proof. intros Hs. unfold estimate_grades. rewrite skipped_guard; auto. Qed.

Lemma miss_skipped (de : DirectedEdge) (shape : list PointLL) :
  skipped de →
  miss de shape
  = Some (mkEntry flat_bucket flat_bucket 0 0 0 0, mean_of_zero,
          [SetMeanElevation (edgeinfo_offset de) mean_of_zero]).
Proof.
  intros Hs. unfold cache_miss. rewrite estimate_skipped by done.
  simpl. rewrite make_entry_zero. simpl. rewrite stored_zero. reflexivity.
Qed.

Lemma sampling_ends (de : DirectedEdge) (shape : list PointLL) :
  de_length de < 180 ∨ bridge de = true →
  sampling' de shape
  = (front ← head shape; back ← last shape;
     Some ([front; back], Cxx.double_of_uint32 (de_length de))).
Proof.
  intros H. unfold sampling.
  replace ((de_length de <? POSTING_INTERVAL * 3) || bridge de) with true; [done |].
  symmetry. apply orb_true_iff.
  destruct H as [H | H]; [left; apply Z.ltb_lt; exact H | right; exact H].
Qed.

Lemma sampling_resampled (de : DirectedEdge) (shape : list PointLL) :
  180 ≤ de_length de → bridge de = false →
  sampling' de shape
  = Some (resample_spherical_polyline shape (Cxx.double_of_uint32 POSTING_INTERVAL),
          Cxx.double_of_uint32 POSTING_INTERVAL).
Proof.
  intros Hl Hb. unfold sampling. rewrite Hb.
  replace (de_length de <? POSTING_INTERVAL * 3) with false; [done |].
  symmetry. apply Z.ltb_ge. exact Hl.
Qed.

Lemma estimate_short (de : DirectedEdge) (shape : list PointLL) (a b : PointLL) :
  ¬ skipped de → de_length de < 10 →
  head shape = Some a → last shape = Some b →
  let interval := Cxx.double_of_uint32 (de_length de) in
  let heights := get_all [a; b] in
  let mean := get3 (weighted_grade heights interval) in
  estimate de shape
  = Some ((0, 0, 0, mean)%float, (0, 0, 0, mean)%float,
          [GetAll [a; b]; WeightedGrade heights interval]).
Proof.
  intros Hn Hl Ha Hb. cbv zeta. unfold estimate_grades.
  rewrite sampled_guard by done.
  rewrite sampling_ends by lia. rewrite Ha, Hb. simpl.
  replace (de_length de <? kMinimumInterval) with true; [done |].
  symmetry. apply Z.ltb_lt. exact Hl.
Qed.

Lemma estimate_long (de : DirectedEdge) (shape resampled : list PointLL)
    (interval : float) :
  ¬ skipped de → 10 ≤ de_length de →
  sampling' de shape = Some (resampled, interval) →
  let heights := get_all resampled in
  estimate de shape
  = Some (weighted_grade heights interval,
          weighted_grade (rev heights) interval,
          [GetAll resampled; WeightedGrade heights interval;
           WeightedGrade (rev heights) interval]).
Proof.
  intros Hn Hl Hs. cbv zeta. unfold estimate_grades.
  rewrite sampled_guard by done. rewrite Hs. simpl.
  replace (de_length de <? kMinimumInterval) with false; [done |].
  symmetry. apply Z.ltb_ge. exact Hl.
Qed.

(** ** The loop over the directed edges *)

Lemma visit_cases shapes i de st de' st' :
  visit' shapes i de st = Some (de', st') →
  (∃ e, cache st !! edgeinfo_offset de = Some e ∧ st' = st ∧
        de' = apply_entry e de) ∨
  (∃ shape e mean calls,
     cache st !! edgeinfo_offset de = None ∧
     shapes !! edgeinfo_offset de = Some shape ∧
     miss de shape = Some (e, mean, calls) ∧
     st' = mkLoop (<[edgeinfo_offset de := e]> (cache st))
                  (<[edgeinfo_offset de := mean]> (means st))
                  (log st ++ (pair i <$> calls)) ∧
     de' = apply_entry e de).
Proof.
  unfold visit. intros H.
  destruct (cache st !! edgeinfo_offset de) as [e |] eqn:Hc; simpl in H.
  - left. injection H as <- <-. eauto.
  - right.
    destruct (shapes !! edgeinfo_offset de) as [shape |] eqn:Hs;
      simpl in H; [| discriminate].
    destruct (miss de shape) as [[[e mean] calls] |] eqn:Hm;
      simpl in H; [| discriminate].
    injection H as <- <-. eauto 10.
Qed.

Lemma visit_from_cons shapes i de rest st edges' st' :
  visit_from' shapes i (de :: rest) st = Some (edges', st') →
  ∃ de' st1 rest',
    visit' shapes i de st = Some (de', st1) ∧
    visit_from' shapes (S i) rest st1 = Some (rest', st') ∧
    edges' = de' :: rest'.
Proof.
  simpl. intros H.
  destruct (visit' shapes i de st) as [[de' st1] |]; simpl in H; [| discriminate].
  destruct (visit_from' shapes (S i) rest st1) as [[rest' st2] |] eqn:Hrest;
    simpl in H; [| discriminate].
  injection H as <- <-. eauto 10.
Qed.

(** One iteration leaves an entry for the edge's offset in the cache, applies
    it to the edge, and touches no other offset. *)
Lemma visit_effect shapes i de st de' st1 :
  visit' shapes i de st = Some (de', st1) →
  (∃ e, cache st1 !! edgeinfo_offset de = Some e ∧ de' = apply_entry e de) ∧
  (∀ o x, cache st !! o = Some x →
     cache st1 !! o = Some x ∧ means st1 !! o = means st !! o) ∧
  (∀ o, o ≠ edgeinfo_offset de → cache st1 !! o = cache st !! o).
Proof.
  intros [(e & Hc & -> & ->) | (shape & e & mean & calls & Hc & Hs & Hm & -> & ->)]%visit_cases.
  - split; [eauto | split; auto].
  - simpl. split; [| split].
    + exists e. rewrite lookup_insert_eq. auto.
    + intros o x Ho.
      assert (edgeinfo_offset de ≠ o) by (intros <-; congruence).
      rewrite !lookup_insert_ne by done. auto.
    + intros o Ho. rewrite lookup_insert_ne by done. reflexivity.
Qed.

(** Entries present in the cache stay as they are to the end of the loop, and
    so does the mean elevation of their offset. *)
Lemma visit_from_keeps shapes edges :
  ∀ i st edges' st', visit_from' shapes i edges st = Some (edges', st') →
  ∀ o x, cache st !! o = Some x →
    cache st' !! o = Some x ∧ means st' !! o = means st !! o.
Proof.
  induction edges as [| de rest IH]; intros i st edges' st' Hrun o x Ho.
  - simpl in Hrun. injection Hrun as <- <-. auto.
  - apply visit_from_cons in Hrun as (de' & st1 & rest' & Hv & Hrest & ->).
    apply visit_effect in Hv as (_ & Hkeep & _).
    destruct (Hkeep o x Ho) as [Hc1 Hm1].
    destruct (IH _ _ _ _ Hrest o x Hc1) as [Hc2 Hm2].
    split; [exact Hc2 | congruence].
Qed.

Lemma visit_from_length shapes edges :
  ∀ i st edges' st', visit_from' shapes i edges st = Some (edges', st') →
  length edges' = length edges.
Proof.
  induction edges as [| de rest IH]; intros i st edges' st' Hrun.
  - simpl in Hrun. injection Hrun as <- <-. reflexivity.
  - apply visit_from_cons in Hrun as (de' & st1 & rest' & Hv & Hrest & ->).
    simpl. f_equal. eauto.
Qed.

(** Every directed edge ends up with the triple selected from the entry the
    cache holds for its offset when the loop ends. *)
Lemma visit_from_applied shapes edges :
  ∀ i st edges' st', visit_from' shapes i edges st = Some (edges', st') →
  ∀ j de, edges !! j = Some de →
    ∃ e, cache st' !! edgeinfo_offset de = Some e ∧
         edges' !! j = Some (apply_entry e de).
Proof.
  induction edges as [| d rest IH]; intros i st edges' st' Hrun j de Hj.
  - rewrite lookup_nil in Hj. discriminate.
  - apply visit_from_cons in Hrun as (d' & st1 & rest' & Hv & Hrest & ->).
    destruct j as [| j]; simpl in Hj.
    + injection Hj as ->.
      apply visit_effect in Hv as ((e & Hc & ->) & _ & _).
      exists e. split; [| reflexivity].
      exact (proj1 (visit_from_keeps _ _ _ _ _ _ Hrest _ _ Hc)).
    + exact (IH _ _ _ _ Hrest j de Hj).
Qed.

(** *** The call log *)

Lemma calls_at_same {C : Type} (j : nat) (cs : list C) :
  calls_at j (pair j <$> cs) = pair j <$> cs.
Proof.
  unfold calls_at. induction cs as [| c cs IH]; [reflexivity |].
  rewrite fmap_cons, filter_cons_True by reflexivity. f_equal. exact IH.
Qed.

Lemma calls_at_other {C : Type} (j : nat) (l : list (nat * C)) :
  (∀ k c, (k, c) ∈ l → k ≠ j) → calls_at j l = [].
Proof.
  unfold calls_at. induction l as [| [k c] l IH]; intros Hl; [reflexivity |].
  rewrite filter_cons_False.
  - apply IH. intros k' c' Hin. apply (Hl k' c'). apply elem_of_cons. auto.
  - simpl. apply (Hl k c). apply elem_of_cons. auto.
Qed.

Lemma filter_agree {A : Type} (P Q : A → Prop)
    `{∀ x, Decision (P x)} `{∀ x, Decision (Q x)} (l : list A) :
  (∀ x, x ∈ l → P x ↔ Q x) → filter P l = filter Q l.
Proof.
  induction l as [| x l IH]; intros Hl; [reflexivity |].
  assert (Hx : P x ↔ Q x) by (apply Hl, elem_of_cons; auto).
  assert (Hrest : filter P l = filter Q l)
    by (apply IH; intros y Hy; apply Hl, elem_of_cons; auto).
  rewrite !filter_cons, Hrest.
  destruct (decide (P x)), (decide (Q x)); tauto.
Qed.

Lemma first_of_offset_tail d rest j dj :
  first_of_offset (d :: rest) (S j) → rest !! j = Some dj →
  first_of_offset rest j ∧ edgeinfo_offset d ≠ edgeinfo_offset dj.
Proof.
  intros Hfirst Hj. split.
  - intros k dk dj' Hk Hdk Hdj.
    apply (Hfirst (S k) dk dj'); [lia | exact Hdk | exact Hdj].
  - apply (Hfirst 0%nat d dj); [lia | reflexivity | exact Hj].
Qed.

Lemma first_of_offset_cons d rest j dj :
  first_of_offset rest j → rest !! j = Some dj →
  edgeinfo_offset d ≠ edgeinfo_offset dj →
  first_of_offset (d :: rest) (S j).
Proof.
  intros Hfirst Hj Hd k dk dj' Hk Hdk Hdj. simpl in Hdj.
  assert (dj' = dj) as -> by congruence.
  destruct k as [| k]; simpl in Hdk.
  - injection Hdk as <-. exact Hd.
  - apply (Hfirst k dk dj); [lia | exact Hdk | exact Hj].
Qed.

(** Two first directed edges of one offset are the same directed edge. *)
Lemma first_of_offset_unique edges j k dj dk :
  first_of_offset edges j → first_of_offset edges k →
  edges !! j = Some dj → edges !! k = Some dk →
  edgeinfo_offset dj = edgeinfo_offset dk → j = k.
Proof.
  intros Hj Hk Hdj Hdk Ho.
  destruct (Nat.lt_trichotomy j k) as [Hlt | [Heq | Hgt]]; [| exact Heq |].
  - destruct (Hk j dj dk Hlt Hdj Hdk Ho).
  - destruct (Hj k dk dj Hgt Hdk Hdj). symmetry. exact Ho.
Qed.

(** Calls are only made at the first directed edge of an offset that the
    cache did not hold when the loop started. *)
Lemma visit_from_log shapes edges :
  ∀ i st edges' st', visit_from' shapes i edges st = Some (edges', st') →
  ∃ new, log st' = log st ++ new ∧
    ∀ k c, (k, c) ∈ new →
      ∃ j de, k = (i + j)%nat ∧ edges !! j = Some de ∧
              cache st !! edgeinfo_offset de = None ∧ first_of_offset edges j.
Proof.
  induction edges as [| d rest IH]; intros i st edges' st' Hrun.
  - simpl in Hrun. injection Hrun as <- <-. exists [].
    split; [by rewrite app_nil_r |]. intros k c Hin. by apply elem_of_nil in Hin.
  - apply visit_from_cons in Hrun as (d' & st1 & rest' & Hv & Hrest & ->).
    destruct (IH _ _ _ _ Hrest) as (new1 & Hlog1 & Hnew1).
    pose proof (visit_effect _ _ _ _ _ _ Hv) as ((e0 & Hc0 & _) & _ & Hother).
    assert (Htail : ∀ k c, (k, c) ∈ new1 →
      ∃ j de, k = (i + j)%nat ∧ (d :: rest) !! j = Some de ∧
              cache st !! edgeinfo_offset de = None ∧
              first_of_offset (d :: rest) j).
    { intros k c Hin.
      destruct (Hnew1 k c Hin) as (j & de & -> & Hj & Hnone & Hfirst).
      assert (Hne : edgeinfo_offset de ≠ edgeinfo_offset d)
        by (intros Heq; rewrite Heq in Hnone; congruence).
      exists (S j), de. split; [lia |]. split; [exact Hj |].
      split; [rewrite <- (Hother _ Hne); exact Hnone |].
      apply (first_of_offset_cons _ _ _ de); auto. }
    apply visit_cases in Hv
      as [(e & Hc & -> & _) | (shape & e & mean & calls & Hc & _ & _ & -> & _)].
    + exists new1. split; [exact Hlog1 | exact Htail].
    + exists ((pair i <$> calls) ++ new1). simpl in Hlog1.
      split; [rewrite Hlog1; by rewrite app_assoc |].
      intros k c [Hin | Hin]%elem_of_app; [| exact (Htail k c Hin)].
      apply list_elem_of_fmap in Hin as (c' & [= -> ->] & _).
      exists 0%nat, d. split; [lia |]. split; [reflexivity |].
      split; [exact Hc |]. intros k' dk dj Hlt. lia.
Qed.

(** The first directed edge of an offset the cache does not hold runs the
    cache-miss computation; its entry and its mean elevation are what the
    loop ends with, and its calls are all the calls made at that index. *)
Lemma visit_from_first shapes edges :
  ∀ i st edges' st', visit_from' shapes i edges st = Some (edges', st') →
  ∀ j de, edges !! j = Some de →
    cache st !! edgeinfo_offset de = None → first_of_offset edges j →
    ∃ shape e mean calls,
      shapes !! edgeinfo_offset de = Some shape ∧
      miss de shape = Some (e, mean, calls) ∧
      cache st' !! edgeinfo_offset de = Some e ∧
      means st' !! edgeinfo_offset de = Some mean ∧
      calls_at (i + j) (log st')
      = calls_at (i + j) (log st) ++ (pair (i + j)%nat <$> calls).
Proof.
  induction edges as [| d rest IH]; intros i st edges' st' Hrun j de Hj Hnone Hfirst.
  - rewrite lookup_nil in Hj. discriminate.
  - apply visit_from_cons in Hrun as (d' & st1 & rest' & Hv & Hrest & ->).
    destruct j as [| j]; simpl in Hj.
    + injection Hj as ->. rewrite Nat.add_0_r.
      destruct (visit_from_log _ _ _ _ _ _ Hrest) as (new1 & Hlog1 & Hnew1).
      apply visit_cases in Hv
        as [(e & Hc & _) | (shape & e & mean & calls & _ & Hs & Hm & -> & _)];
        [congruence |].
      simpl in *.
      destruct (visit_from_keeps _ _ _ _ _ _ Hrest (edgeinfo_offset de) e)
        as [Hc' Hm']; [simpl; apply lookup_insert_eq |].
      simpl in Hm'. rewrite lookup_insert_eq in Hm'.
      exists shape, e, mean, calls. repeat (split; [done |]).
      rewrite Hlog1. unfold calls_at. rewrite !filter_app.
      fold (calls_at i (pair i <$> calls)). rewrite calls_at_same.
      fold (calls_at i new1). rewrite (calls_at_other i new1).
      * by rewrite app_nil_r.
      * intros k c Hin. destruct (Hnew1 k c Hin) as (j' & _ & -> & _). lia.
    + destruct (first_of_offset_tail _ _ _ _ Hfirst Hj) as [Hfirst' Hne].
      pose proof (visit_effect _ _ _ _ _ _ Hv) as (_ & _ & Hother).
      assert (Hnone1 : cache st1 !! edgeinfo_offset de = None)
        by (rewrite Hother; [exact Hnone | congruence]).
      destruct (IH _ _ _ _ Hrest j de Hj Hnone1 Hfirst')
        as (shape & e & mean & calls & Hs & Hm & Hc' & Hm' & Hlog).
      exists shape, e, mean, calls. repeat (split; [done |]).
      replace (i + S j)%nat with (S i + j)%nat by lia. rewrite Hlog.
      f_equal.
      apply visit_cases in Hv
        as [(e0 & _ & -> & _) | (shape0 & e0 & mean0 & calls0 & _ & _ & _ & -> & _)];
        [reflexivity |].
      simpl. unfold calls_at. rewrite filter_app.
      fold (calls_at (S (i + j)) (pair i <$> calls0)).
      rewrite (calls_at_other _ (pair i <$> calls0)); [by rewrite app_nil_r |].
      intros k c (c' & [= -> ->] & _)%list_elem_of_fmap. lia.
Qed.

(** *** What one cache-miss computation does *)

Lemma sampling_ends_inv de shape resampled interval :
  de_length de < 180 ∨ bridge de = true →
  sampling' de shape = Some (resampled, interval) →
  ∃ a b, head shape = Some a ∧ last shape = Some b ∧
         resampled = [a; b] ∧ interval = Cxx.double_of_uint32 (de_length de).
Proof.
  intros Hends Hs. rewrite sampling_ends in Hs by done.
  destruct (head shape) as [a |]; simpl in Hs; [| discriminate].
  destruct (last shape) as [b |]; simpl in Hs; [| discriminate].
  injection Hs as <- <-. eauto 10.
Qed.

Lemma miss_sampled de shape e mean calls :
  ¬ skipped de → miss de shape = Some (e, mean, calls) →
  ∃ resampled interval,
    sampling' de shape = Some (resampled, interval) ∧
    let heights := get_all resampled in
    let forward_grades := weighted_grade heights interval in
    let reverse_grades := weighted_grade (rev heights) interval in
    (de_length de < 10 ∧
     e = mkEntry flat_bucket flat_bucket 0 0 0 0 ∧
     mean = stored (0, 0, 0, get3 forward_grades)%float ∧
     calls = [GetAll resampled; WeightedGrade heights interval;
              SetMeanElevation (edgeinfo_offset de) mean]) ∨
    (10 ≤ de_length de ∧
     make_entry forward_grades reverse_grades = Some e ∧
     mean = stored forward_grades ∧
     calls = [GetAll resampled; WeightedGrade heights interval;
              WeightedGrade (rev heights) interval;
              SetMeanElevation (edgeinfo_offset de) mean]).
Proof.
  intros Hn Hm. unfold cache_miss, estimate_grades in Hm.
  rewrite sampled_guard in Hm by done.
  destruct (sampling' de shape) as [[resampled interval] |] eqn:Hs;
    simpl in Hm; [| discriminate].
  exists resampled, interval. split; [reflexivity |]. cbv zeta.
  destruct (Z.ltb_spec (de_length de) kMinimumInterval) as [Hl | Hl];
    unfold kMinimumInterval in Hl; simpl in Hm.
  - left. rewrite make_entry_short in Hm. simpl in Hm.
    injection Hm as <- <- <-. auto.
  - right.
    destruct (make_entry _ _) as [e' |] eqn:He; simpl in Hm; [| discriminate].
    injection Hm as <- <- <-. auto.
Qed.

Lemma written_apply_entry e de :
  written (apply_entry e de) = select (de_forward de) e.
Proof. unfold apply_entry, select. destruct (de_forward de); reflexivity. Qed.

(** *** The first directed edge of an offset, over the whole tile *)

Lemma first_visit cache_in tile tile' cache' log j de :
  single_tile cache_in tile = Some (tile', cache', log) →
  directededges tile !! j = Some de →
  first_of_offset (directededges tile) j →
  ∃ shape e mean calls,
    shapes tile !! edgeinfo_offset de = Some shape ∧
    miss de shape = Some (e, mean, calls) ∧
    cache' !! edgeinfo_offset de = Some e ∧
    mean_elevations tile' !! edgeinfo_offset de = Some mean ∧
    calls_at j log = (pair j <$> calls) ∧
    calls_for (directededges tile) (edgeinfo_offset de) log = (pair j <$> calls) ∧
    ∀ k dk, directededges tile !! k = Some dk →
      edgeinfo_offset dk = edgeinfo_offset de →
      directededges tile' !! k = Some (apply_entry e dk).
Proof.
  unfold add_elevations_to_single_tile. rewrite clear_empty.
  intros Hrun Hj Hfirst.
  destruct (visit_from' _ _ _ _) as [[edges' st] |] eqn:Hloop;
    simpl in Hrun; [| discriminate].
  injection Hrun as <- <- <-. simpl.
  destruct (visit_from_first _ _ _ _ _ _ Hloop j de Hj (lookup_empty _) Hfirst)
    as (shape & e & mean & calls & Hs & Hm & Hc & Hmean & Hlog).
  simpl in Hlog.
  exists shape, e, mean, calls. repeat (split; [done |]). split.
  - rewrite <- Hlog. unfold calls_for, calls_at. apply filter_agree.
    intros [k c] Hin. simpl.
    destruct (visit_from_log _ _ _ _ _ _ Hloop) as (new & Hnew & Hat).
    simpl in Hnew. rewrite Hnew in Hin.
    destruct (Hat k c Hin) as (j' & de' & -> & Hj' & _ & Hfirst'). simpl.
    rewrite Hj'. simpl. split.
    + intros [= Ho]. symmetry.
      apply (first_of_offset_unique _ _ _ _ _ Hfirst Hfirst' Hj Hj'). done.
    + intros ->. congruence.
  - intros k dk Hk Ho.
    destruct (visit_from_applied _ _ _ _ _ _ Hloop k dk Hk) as (e' & Hc' & Hk').
    rewrite Ho, Hc in Hc'. injection Hc' as <-. exact Hk'.
Qed.


(** Every directed edge has a first directed edge of its offset at or
    before it. *)
Lemma first_of_offset_exists (edges : list DirectedEdge) :
  ∀ k dk, edges !! k = Some dk →
  ∃ j dj, (j ≤ k)%nat ∧ edges !! j = Some dj ∧
          edgeinfo_offset dj = edgeinfo_offset dk ∧ first_of_offset edges j.
Proof.
  intros k. induction k as [k IH] using lt_wf_ind. intros dk Hk.
  destruct (decide (Exists (λ d, edgeinfo_offset d = edgeinfo_offset dk)
                      (take k edges))) as [Hex | Hno].
  - apply Exists_exists in Hex as (d & Hin & Ho).
    apply list_elem_of_lookup_1 in Hin as (k' & Hk').
    apply lookup_take_Some in Hk' as [Hk' Hlt].
    destruct (IH k' Hlt d Hk') as (j & dj & Hle & Hj & Hoj & Hfirst).
    exists j, dj. split; [lia |]. split; [exact Hj |].
    split; [congruence | exact Hfirst].
  - exists k, dk. split; [lia |]. split; [exact Hk |]. split; [reflexivity |].
    intros k' dk' dk'' Hlt Hk' Hk'' Ho.
    assert (dk'' = dk) as -> by congruence.
    apply Hno, Exists_exists. exists dk'. split; [| exact Ho].
    apply (list_elem_of_lookup_2 _ k'). apply lookup_take_Some. auto.
Qed.

(** ** The rules of the cache-miss computation, over a tile

    In the statements below [dj], at index [j], is the first directed edge of
    the tile that refers to its EdgeInfo: the one the attributes of that
    EdgeInfo are computed on.  [dk] is any directed edge that refers to the
    same EdgeInfo, [dj] included. *)

(** C1: for a tunnel or a ferry line no elevation is sampled: the only call
    made for its EdgeInfo is [set_mean_elevation]; the forward and the reverse
    grade bucket are the flat bucket and the four max slopes are zero, in the
    cache entry and on every directed edge of that EdgeInfo.  The mean
    elevation stored is the fourth component of the zero-initialised tuple,
    0, which becomes [kNoElevationData] only if 0 is the no-data value of the
    height service. *)
Theorem tunnel_or_ferry_is_flat cache_in tile tile' cache' log j dj :
  single_tile cache_in tile = Some (tile', cache', log) →
  directededges tile !! j = Some dj →
  first_of_offset (directededges tile) j →
  skipped dj →
  (∀ shape, miss dj shape
            = Some (mkEntry flat_bucket flat_bucket 0 0 0 0, mean_of_zero,
                    [SetMeanElevation (edgeinfo_offset dj) mean_of_zero])) ∧
  calls_for (directededges tile) (edgeinfo_offset dj) log
  = [(j, SetMeanElevation (edgeinfo_offset dj) mean_of_zero)] ∧
  cache' !! edgeinfo_offset dj
  = Some (mkEntry flat_bucket flat_bucket 0 0 0 0) ∧
  (∀ k dk, directededges tile !! k = Some dk →
     edgeinfo_offset dk = edgeinfo_offset dj →
     written <$> directededges tile' !! k = Some (flat_bucket, 0%float, 0%float)) ∧
  mean_elevations tile' !! edgeinfo_offset dj = Some mean_of_zero.
Proof.
  intros Hrun Hj Hfirst Hskip.
  destruct (first_visit _ _ _ _ _ _ _ Hrun Hj Hfirst)
    as (shape & e & mean & calls & _ & Hm & Hc & Hmean & _ & Hfor & Happ).
  rewrite miss_skipped in Hm by done. injection Hm as <- <- <-.
  split; [intros shape'; by apply miss_skipped |].
  split; [exact Hfor |]. split; [exact Hc |]. split; [| exact Hmean].
  intros k dk Hk Ho. rewrite (Happ k dk Hk Ho). simpl.
  rewrite written_apply_entry. by destruct (de_forward dk).
Qed.

(** C10: the tunnel and ferry test comes before the test on the length, and
    no length is asked for: whatever the length of a tunnel or ferry line
    that is the first directed edge of its EdgeInfo, below 10 m too, the
    height service is not queried and the grade routine is not run for that
    EdgeInfo, and the mean elevation stored is what the zero-initialised
    tuple leaves: its 0, unless 0 is the no-data value of the height service,
    and then [kNoElevationData]. *)
Theorem tunnel_or_ferry_precedes_short_edge cache_in tile tile' cache' log j dj :
  single_tile cache_in tile = Some (tile', cache', log) →
  directededges tile !! j = Some dj →
  first_of_offset (directededges tile) j →
  skipped dj →
  (∀ shape, estimate dj shape = Some (zero_grades, zero_grades, [])) ∧
  count_calls is_GetAll
    (calls_for (directededges tile) (edgeinfo_offset dj) log) = 0%nat ∧
  count_calls is_WeightedGrade
    (calls_for (directededges tile) (edgeinfo_offset dj) log) = 0%nat ∧
  mean_elevations tile' !! edgeinfo_offset dj = Some mean_of_zero ∧
  (PrimFloat.eqb 0 get_no_data_value = false →
   mean_elevations tile' !! edgeinfo_offset dj = Some (get3 zero_grades)).
Proof.
  intros Hrun Hj Hfirst Hskip.
  destruct (first_visit _ _ _ _ _ _ _ Hrun Hj Hfirst)
    as (shape & e & mean & calls & _ & Hm & _ & Hmean & _ & Hfor & _).
  rewrite miss_skipped in Hm by done. injection Hm as <- <- <-.
  split; [intros shape'; by apply estimate_skipped |].
  rewrite Hfor, Hmean.
  split; [reflexivity |]. split; [reflexivity |]. split; [reflexivity |].
  intros Hnd. unfold mean_of_zero_tuple. rewrite Hnd. reflexivity.
Qed.

(** C4: for a directed edge shorter than 10 m that is neither tunnel nor
    ferry line, and is the first directed edge of its EdgeInfo, the two ends
    of the shape are sampled and the grade routine
    runs, but of its result only the mean elevation is kept: the buckets are
    the flat bucket, the slopes zero, and the mean elevation stored is the
    computed one, in single precision, or [kNoElevationData] if that is the
    no-data value of the height service. *)
Theorem short_edge_keeps_mean cache_in tile tile' cache' log j dj :
  single_tile cache_in tile = Some (tile', cache', log) →
  directededges tile !! j = Some dj →
  first_of_offset (directededges tile) j →
  ¬ skipped dj →
  de_length dj < 10 →
  ∃ shape a b,
    shapes tile !! edgeinfo_offset dj = Some shape ∧
    head shape = Some a ∧ last shape = Some b ∧
    let computed :=
      weighted_grade (get_all [a; b]) (Cxx.double_of_uint32 (de_length dj)) in
    let mean_elevation := Cxx.float_of_double (get3 computed) in
    calls_for (directededges tile) (edgeinfo_offset dj) log
    = [(j, GetAll [a; b]);
       (j, WeightedGrade (get_all [a; b]) (Cxx.double_of_uint32 (de_length dj)));
       (j, SetMeanElevation (edgeinfo_offset dj)
             (if PrimFloat.eqb mean_elevation get_no_data_value
              then kNoElevationData else mean_elevation))] ∧
    cache' !! edgeinfo_offset dj
    = Some (mkEntry flat_bucket flat_bucket 0 0 0 0) ∧
    (∀ k dk, directededges tile !! k = Some dk →
       edgeinfo_offset dk = edgeinfo_offset dj →
       written <$> directededges tile' !! k = Some (flat_bucket, 0%float, 0%float)) ∧
    mean_elevations tile' !! edgeinfo_offset dj
    = Some (if PrimFloat.eqb mean_elevation get_no_data_value
            then kNoElevationData else mean_elevation).
Proof.
  intros Hrun Hj Hfirst Hskip Hshort.
  destruct (first_visit _ _ _ _ _ _ _ Hrun Hj Hfirst)
    as (shape & e & mean & calls & Hs & Hm & Hc & Hmean & _ & Hfor & Happ).
  destruct (miss_sampled _ _ _ _ _ Hskip Hm)
    as (resampled & interval & Hsamp
        & [(_ & -> & -> & ->) | (Hlong & _)]); [| lia].
  apply sampling_ends_inv in Hsamp as (a & b & Ha & Hb & -> & ->); [| lia].
  exists shape, a, b.
  split; [exact Hs |]. split; [exact Ha |]. split; [exact Hb |]. cbv zeta.
  split; [exact Hfor |].
  split; [exact Hc |]. split; [| exact Hmean].
  intros k dk Hk Ho. rewrite (Happ k dk Hk Ho). simpl.
  rewrite written_apply_entry. by destruct (de_forward dk).
Qed.

Lemma posting_interval_60 : Cxx.double_of_uint32 POSTING_INTERVAL = 60%float.
Proof. vm_compute. reflexivity. Qed.

(** C5: for a sampled directed edge of at least 10 m the reverse tuple is
    the grade routine run again, on the reversed heights and with the same
    interval; the reverse bucket and the reverse max slopes of the cache
    entry come from that second run, the forward ones from the first, and a
    directed edge takes the ones of its own direction. *)
Theorem reverse_is_rerun_on_reversed_heights cache_in tile tile' cache' log j dj :
  single_tile cache_in tile = Some (tile', cache', log) →
  directededges tile !! j = Some dj →
  first_of_offset (directededges tile) j →
  ¬ skipped dj →
  10 ≤ de_length dj →
  ∃ shape resampled interval e,
    shapes tile !! edgeinfo_offset dj = Some shape ∧
    sampling' dj shape = Some (resampled, interval) ∧
    let heights := get_all resampled in
    let forward_grades := weighted_grade heights interval in
    let reverse_grades := weighted_grade (rev heights) interval in
    calls_at j log
    = [(j, GetAll resampled);
       (j, WeightedGrade heights interval);
       (j, WeightedGrade (rev heights) interval);
       (j, SetMeanElevation (edgeinfo_offset dj) (stored forward_grades))] ∧
    cache' !! edgeinfo_offset dj = Some e ∧
    grade_bucket (get0 reverse_grades) = Some (reverse_grade e) ∧
    reverse_max_up e = Cxx.float_of_double (get1 reverse_grades) ∧
    reverse_max_down e = Cxx.float_of_double (get2 reverse_grades) ∧
    grade_bucket (get0 forward_grades) = Some (forward_grade e) ∧
    forward_max_up e = Cxx.float_of_double (get1 forward_grades) ∧
    forward_max_down e = Cxx.float_of_double (get2 forward_grades) ∧
    (∀ k dk, directededges tile !! k = Some dk →
       edgeinfo_offset dk = edgeinfo_offset dj →
       written <$> directededges tile' !! k = Some (select (de_forward dk) e)).
Proof.
  intros Hrun Hj Hfirst Hskip Hlong.
  destruct (first_visit _ _ _ _ _ _ _ Hrun Hj Hfirst)
    as (shape & e & mean & calls & Hs & Hm & Hc & _ & Hat & _ & Happ).
  destruct (miss_sampled _ _ _ _ _ Hskip Hm)
    as (resampled & interval & Hsamp
        & [(Hshort & _) | (_ & He & -> & ->)]); [lia |].
  apply make_entry_Some in He as (Hfg & Hrg & Hfu & Hfd & Hru & Hrd).
  exists shape, resampled, interval, e.
  split; [exact Hs |]. split; [exact Hsamp |]. cbv zeta.
  split; [exact Hat |]. split; [exact Hc |].
  do 6 (split; [assumption |]).
  intros k dk Hk Ho. rewrite (Happ k dk Hk Ho). simpl.
  by rewrite written_apply_entry.
Qed.

(** C6: a sampled directed edge shorter than 180 m, or on a bridge, has the
    two ends of its shape sampled, in one query, and its length as the
    interval of every run of the grade routine; any other has the shape
    resampled at 60 m and 60 m as the interval. *)
Theorem sampling_rule cache_in tile tile' cache' log j dj :
  single_tile cache_in tile = Some (tile', cache', log) →
  directededges tile !! j = Some dj →
  first_of_offset (directededges tile) j →
  ¬ skipped dj →
  ∃ shape resampled interval rest,
    shapes tile !! edgeinfo_offset dj = Some shape ∧
    calls_for (directededges tile) (edgeinfo_offset dj) log
    = (j, GetAll resampled)
      :: (j, WeightedGrade (get_all resampled) interval) :: rest ∧
    count_calls is_GetAll rest = 0%nat ∧
    Forall (λ ic, ∀ heights i, ic.2 = WeightedGrade heights i → i = interval) rest ∧
    (de_length dj < 180 ∨ bridge dj = true →
       ∃ a b, head shape = Some a ∧ last shape = Some b ∧
              resampled = [a; b] ∧
              interval = Cxx.double_of_uint32 (de_length dj)) ∧
    (180 ≤ de_length dj → bridge dj = false →
       resampled = resample_spherical_polyline shape 60%float ∧
       interval = 60%float).
Proof.
  intros Hrun Hj Hfirst Hskip.
  destruct (first_visit _ _ _ _ _ _ _ Hrun Hj Hfirst)
    as (shape & e & mean & calls & Hs & Hm & _ & _ & _ & Hfor & _).
  destruct (miss_sampled _ _ _ _ _ Hskip Hm)
    as (resampled & interval & Hsamp & Hcases).
  assert (Hrule :
    (de_length dj < 180 ∨ bridge dj = true →
       ∃ a b, head shape = Some a ∧ last shape = Some b ∧
              resampled = [a; b] ∧
              interval = Cxx.double_of_uint32 (de_length dj)) ∧
    (180 ≤ de_length dj → bridge dj = false →
       resampled = resample_spherical_polyline shape 60%float ∧
       interval = 60%float)).
  { split.
    - intros Hends. exact (sampling_ends_inv _ _ _ _ Hends Hsamp).
    - intros Hl Hb. rewrite sampling_resampled in Hsamp by done.
      rewrite posting_interval_60 in Hsamp. injection Hsamp as <- <-. auto. }
  exists shape, resampled, interval.
  destruct Hcases as [(_ & _ & _ & ->) | (_ & _ & _ & ->)]; rewrite Hfor.
  - exists [(j, SetMeanElevation (edgeinfo_offset dj) mean)].
    split; [exact Hs |]. split; [reflexivity |]. split; [reflexivity |].
    split; [| exact Hrule].
    repeat constructor. simpl. intros ? ? [=].
  - exists [(j, WeightedGrade (rev (get_all resampled)) interval);
            (j, SetMeanElevation (edgeinfo_offset dj) mean)].
    split; [exact Hs |]. split; [reflexivity |]. split; [reflexivity |].
    split; [| exact Hrule].
    repeat constructor; simpl; intros ? ? [=]; congruence.
Qed.

Lemma skipped_or_not (de : DirectedEdge) : skipped de ∨ ¬ skipped de.
Proof.
  unfold skipped. destruct (tunnel de); [auto |].
  destruct (use de); [auto |]. right. intros [? | ?]; discriminate.
Qed.



(** C7: the routine clears the cache it is handed before the loop, so what
    the cache held - the entries of the tiles the worker did before - has no
    part in the result; every directed edge takes its triple from an entry
    computed on a directed edge of the same tile, at or before it. *)
Theorem cache_cleared_per_tile cache_before tile :
  single_tile cache_before tile = single_tile ∅ tile ∧
  ∀ tile' cache' log,
    single_tile cache_before tile = Some (tile', cache', log) →
    ∀ k dk, directededges tile !! k = Some dk →
      ∃ j dj shape e mean calls,
        (j ≤ k)%nat ∧ directededges tile !! j = Some dj ∧
        edgeinfo_offset dj = edgeinfo_offset dk ∧
        shapes tile !! edgeinfo_offset dj = Some shape ∧
        miss dj shape = Some (e, mean, calls) ∧
        cache' !! edgeinfo_offset dk = Some e ∧
        directededges tile' !! k = Some (apply_entry e dk).
Proof.
  split; [unfold add_elevations_to_single_tile; by rewrite !clear_empty |].
  intros tile' cache' log Hrun k dk Hk.
  destruct (first_of_offset_exists _ k dk Hk) as (j & dj & Hle & Hj & Ho & Hfirst).
  destruct (first_visit _ _ _ _ _ _ _ Hrun Hj Hfirst)
    as (shape & e & mean & calls & Hs & Hm & Hc & _ & _ & _ & Happ).
  exists j, dj, shape, e, mean, calls.
  split; [exact Hle |]. split; [exact Hj |]. split; [exact Ho |].
  split; [exact Hs |]. split; [exact Hm |].
  split; [rewrite <- Ho; exact Hc |].
  apply Happ; [exact Hk | by symmetry].
Qed.

(** ** What the pass keeps, and when it is defined *)

Lemma single_tile_inv cache_in tile tile' cache' calls :
  single_tile cache_in tile = Some (tile', cache', calls) →
  ∃ edges' st,
    visit_from' (shapes tile) 0 (directededges tile)
      (mkLoop ∅ (mean_elevations tile) []) = Some (edges', st) ∧
    tile' = mkTile edges' (shapes tile) (means st) true ∧
    cache' = cache st ∧ calls = log st.
Proof.
  unfold add_elevations_to_single_tile. rewrite clear_empty. intros Hrun.
  destruct (visit_from' _ _ _ _) as [[edges' st] |] eqn:Hloop;
    simpl in Hrun; [| discriminate].
  injection Hrun as <- <- <-. exists edges', st. repeat split.
Qed.

Lemma apply_entry_same_input e de : same_input de (apply_entry e de).
Proof.
  unfold same_input, apply_entry, select.
  destruct (de_forward de) eqn:Hf; simpl; rewrite ?Hf; auto 10.
Qed.

(** X1: The pass writes the three elevation attributes and nothing else: the
    tile has as many directed edges as before, each with the length, the
    flags, the use, the direction and the EdgeInfo offset it had; the shapes
    are as they were; and the header says the tile has elevation. *)
Theorem pass_keeps_inputs cache_in tile tile' cache' log :
  single_tile cache_in tile = Some (tile', cache', log) →
  length (directededges tile') = length (directededges tile) ∧
  (∀ k dk, directededges tile !! k = Some dk →
     ∃ dk', directededges tile' !! k = Some dk' ∧ same_input dk dk') ∧
  shapes tile' = shapes tile ∧
  has_elevation tile' = true.
Proof.
  intros (edges' & st & Hloop & -> & _ & _)%single_tile_inv. simpl.
  split; [exact (visit_from_length _ _ _ _ _ _ Hloop) |].
  split; [| auto].
  intros k dk Hk.
  destruct (visit_from_applied _ _ _ _ _ _ Hloop k dk Hk) as (e & _ & Hk').
  exists (apply_entry e dk). split; [exact Hk' | apply apply_entry_same_input].
Qed.

Lemma visit_from_dom shapes edges :
  ∀ i st edges' st', visit_from' shapes i edges st = Some (edges', st') →
  dom (cache st') = dom (cache st) ∪ offsets_of edges.
Proof.
  unfold offsets_of.
  induction edges as [| d rest IH]; intros i st edges' st' Hrun.
  - simpl in Hrun. injection Hrun as <- <-. set_solver.
  - apply visit_from_cons in Hrun as (d' & st1 & rest' & Hv & Hrest & ->).
    rewrite (IH _ _ _ _ Hrest), fmap_cons, list_to_set_cons.
    apply visit_cases in Hv
      as [(e & Hc & -> & _) | (shape & e & mean & calls & _ & _ & _ & -> & _)].
    + apply elem_of_dom_2 in Hc. set_solver.
    + simpl. rewrite dom_insert_L. set_solver.
Qed.

Lemma size_offsets_of (edges : list DirectedEdge) :
  (size (offsets_of edges) ≤ length edges)%nat.
Proof.
  unfold offsets_of. induction edges as [| d rest IH].
  - rewrite fmap_nil, list_to_set_nil, size_empty. done.
  - rewrite fmap_cons, list_to_set_cons. simpl length.
    rewrite size_union_alt, size_singleton.
    pose proof (subseteq_size
      (list_to_set (edgeinfo_offset <$> rest) ∖ {[edgeinfo_offset d]})
      (list_to_set (edgeinfo_offset <$> rest) : gset Z)) as Hsub.
    specialize (Hsub ltac:(set_solver)). lia.
Qed.

(** X2: When the pass ends the cache holds one entry for each EdgeInfo offset a
    directed edge of the tile refers to, and no other: never more entries
    than directed edges, which is within the [2 * count] reserved. *)
Theorem cache_holds_the_offsets cache_in tile tile' cache' log :
  single_tile cache_in tile = Some (tile', cache', log) →
  dom cache' = offsets_of (directededges tile) ∧
  (size cache' ≤ length (directededges tile))%nat ∧
  (size cache' ≤ 2 * length (directededges tile))%nat.
Proof.
  intros (edges' & st & Hloop & _ & -> & _)%single_tile_inv.
  pose proof (visit_from_dom _ _ _ _ _ _ Hloop) as Hdom. simpl in Hdom.
  rewrite dom_empty_L, (left_id_L ∅ (∪)) in Hdom.
  pose proof (size_offsets_of (directededges tile)) as Hsize.
  rewrite <- Hdom, size_dom in Hsize.
  split; [exact Hdom |]. lia.
Qed.

Lemma visit_from_means_frame shapes edges :
  ∀ i st edges' st', visit_from' shapes i edges st = Some (edges', st') →
  ∀ o, o ∉ offsets_of edges → means st' !! o = means st !! o.
Proof.
  unfold offsets_of.
  induction edges as [| d rest IH]; intros i st edges' st' Hrun o Ho.
  - simpl in Hrun. by injection Hrun as <- <-.
  - apply visit_from_cons in Hrun as (d' & st1 & rest' & Hv & Hrest & ->).
    rewrite fmap_cons, list_to_set_cons in Ho.
    rewrite (IH _ _ _ _ Hrest o) by set_solver.
    apply visit_cases in Hv
      as [(e & _ & -> & _) | (shape & e & mean & calls & _ & _ & _ & -> & _)];
      [reflexivity |].
    simpl. apply lookup_insert_ne. set_solver.
Qed.

(** X3: The pass sets the mean elevation of every EdgeInfo a directed edge refers
    to, and leaves the mean elevation of every other EdgeInfo of the tile as
    it was. *)
Theorem mean_elevation_frame cache_in tile tile' cache' log :
  single_tile cache_in tile = Some (tile', cache', log) →
  dom (mean_elevations tile')
  = dom (mean_elevations tile) ∪ offsets_of (directededges tile) ∧
  ∀ o, o ∉ offsets_of (directededges tile) →
    mean_elevations tile' !! o = mean_elevations tile !! o.
Proof.
  intros Hrun.
  pose proof Hrun as (edges' & st & Hloop & Htile & _ & _)%single_tile_inv.
  split.
  - apply set_eq. intros o. rewrite elem_of_union, !elem_of_dom.
    destruct (decide (o ∈ offsets_of (directededges tile))) as [Hin | Hout].
    + split; [auto |]. intros _.
      apply elem_of_list_to_set, list_elem_of_fmap in Hin as (dk & -> & Hin).
      apply list_elem_of_lookup_1 in Hin as (k & Hk).
      destruct (first_of_offset_exists _ k dk Hk)
        as (j & dj & _ & Hj & Ho & Hfirst).
      destruct (first_visit _ _ _ _ _ _ _ Hrun Hj Hfirst)
        as (shape & e & mean & calls & _ & _ & _ & Hmean & _).
      rewrite <- Ho. eauto.
    + subst tile'. simpl.
      rewrite (visit_from_means_frame _ _ _ _ _ _ Hloop o Hout). simpl. tauto.
  - intros o Hout. subst tile'. simpl.
    exact (visit_from_means_frame _ _ _ _ _ _ Hloop o Hout).
Qed.

Lemma visit_from_defined shapes edges :
  ∀ i st,
  (∀ j dj, edges !! j = Some dj →
     cache st !! edgeinfo_offset dj = None → first_of_offset edges j →
     ∃ shape, shapes !! edgeinfo_offset dj = Some shape ∧
              is_Some (miss dj shape)) →
  is_Some (visit_from' shapes i edges st).
Proof.
  induction edges as [| d rest IH]; intros i st Hall; [by eexists |].
  assert (Hhead : is_Some (visit' shapes i d st)).
  { unfold visit.
    destruct (cache st !! edgeinfo_offset d) as [e |] eqn:Hc; [by eexists |].
    destruct (Hall 0%nat d eq_refl Hc) as (shape & Hs & [[[e mean] calls] Hm]).
    { intros k dk dj Hk. lia. }
    rewrite Hs. simpl. rewrite Hm. by eexists. }
  destruct Hhead as [[d' st1] Hv].
  pose proof (visit_effect _ _ _ _ _ _ Hv) as ((e0 & Hc0 & _) & _ & Hother).
  destruct (IH (S i) st1) as [[rest' st'] Hrest].
  { intros j dj Hj Hnone Hfirst.
    assert (Hne : edgeinfo_offset dj ≠ edgeinfo_offset d)
      by (intros Heq; rewrite Heq in Hnone; congruence).
    apply (Hall (S j) dj Hj).
    - rewrite <- (Hother _ Hne). exact Hnone.
    - apply (first_of_offset_cons _ _ _ dj); auto. }
  simpl. rewrite Hv. simpl. rewrite Hrest. by eexists.
Qed.

(** X4: The pass is defined on a tile exactly when the cache-miss computation is
    defined on the first directed edge of every EdgeInfo offset, with the
    shape the tile has for that offset.  No other directed edge can make it
    undefined. *)
Theorem pass_defined_iff cache_in tile :
  is_Some (single_tile cache_in tile) ↔
  ∀ j dj, directededges tile !! j = Some dj →
    first_of_offset (directededges tile) j →
    ∃ shape, shapes tile !! edgeinfo_offset dj = Some shape ∧
             is_Some (miss dj shape).
Proof.
  split.
  - intros [[[tile' cache'] calls] Hrun] j dj Hj Hfirst.
    destruct (first_visit _ _ _ _ _ _ _ Hrun Hj Hfirst)
      as (shape & e & mean & calls' & Hs & Hm & _).
    exists shape. split; [exact Hs | by eexists].
  - intros Hall. unfold add_elevations_to_single_tile. rewrite clear_empty.
    destruct (visit_from_defined (shapes tile) (directededges tile) 0%nat
                (mkLoop ∅ (mean_elevations tile) [])) as [[edges' st] Hloop].
    { intros j dj Hj _ Hfirst. exact (Hall j dj Hj Hfirst). }
    rewrite Hloop. by eexists.
Qed.

Lemma sampling_defined de shape :
  is_Some (sampling' de shape) ↔
  (de_length de < 180 ∨ bridge de = true → shape ≠ []).
Proof.
  destruct (decide (de_length de < 180 ∨ bridge de = true)) as [Hends | Hres].
  - rewrite sampling_ends by done. destruct shape as [| a shape]; simpl.
    + split; [intros [? [=]] | intros Hne; by destruct (Hne Hends)].
    + destruct (last_is_Some (a :: shape)) as [_ [b Hb]]; [done |].
      rewrite Hb. simpl. split; [done | by eexists].
  - rewrite sampling_resampled.
    + split; [tauto | by eexists].
    + lia.
    + destruct (bridge de); [tauto | reflexivity].
Qed.

(** X5: When the cache-miss computation is defined.  For a tunnel or a ferry
    line, always, whatever the shape.  For any other directed edge the shape
    must have ends to sample if it is not resampled, and, unless the edge is
    shorter than 10 m and the grades are dropped, the two weighted grades
    must give buckets that are [uint32_t] values. *)
Theorem miss_defined_iff de shape :
  is_Some (miss de shape) ↔
  skipped de ∨
  ∃ resampled interval,
    sampling' de shape = Some (resampled, interval) ∧
    (de_length de < 180 ∨ bridge de = true → shape ≠ []) ∧
    (de_length de < 10 ∨
     (is_Some (grade_bucket
                 (get0 (weighted_grade (get_all resampled) interval))) ∧
      is_Some (grade_bucket
                 (get0 (weighted_grade (rev (get_all resampled)) interval))))).
Proof.
  split.
  - intros [[[e mean] calls] Hm].
    destruct (skipped_or_not de) as [Hs | Hs]; [by left | right].
    destruct (miss_sampled _ _ _ _ _ Hs Hm)
      as (resampled & interval & Hsamp & Hcases).
    exists resampled, interval. split; [exact Hsamp |]. split.
    { apply sampling_defined. by eexists. }
    destruct Hcases as [(Hshort & _) | (_ & He & _)]; [by left | right].
    apply make_entry_Some in He as (Hf & Hr & _). split; by eexists.
  - intros [Hs | (resampled & interval & Hsamp & _ & Hgrades)].
    + rewrite miss_skipped by done. by eexists.
    + destruct (skipped_or_not de) as [Hs | Hs];
        [rewrite miss_skipped by done; by eexists |].
      unfold cache_miss, estimate_grades.
      rewrite sampled_guard by done. rewrite Hsamp. simpl.
      destruct (Z.ltb_spec (de_length de) kMinimumInterval) as [Hl | Hl];
        unfold kMinimumInterval in Hl; simpl.
      * rewrite make_entry_short. by eexists.
      * destruct Hgrades as [Hshort | [[f Hf] [r Hr]]]; [lia |].
        unfold make_entry. rewrite Hf, Hr. by eexists.
Qed.

Lemma single_tile_any_cache cache_one cache_two tile :
  single_tile cache_one tile = single_tile cache_two tile.
Proof. unfold add_elevations_to_single_tile. by rewrite !clear_empty. Qed.

(** ** Running the pass again *)

Lemma miss_same_input d d2 shape :
  same_input d d2 → miss d2 shape = miss d shape.
Proof.
  intros (Hl & Ht & Hb & Hu & _ & Ho).
  unfold cache_miss, estimate_grades, sampling.
  rewrite Hl, Ht, Hb, Hu, Ho. reflexivity.
Qed.

Lemma apply_entry_idem e d : apply_entry e (apply_entry e d) = apply_entry e d.
Proof.
  destruct d as [l t b u f o g up down].
  unfold apply_entry, select. simpl. destruct f; reflexivity.
Qed.

Lemma visit_from_rerun shapes edges :
  ∀ i st edges' st', visit_from' shapes i edges st = Some (edges', st') →
  visit_from' shapes i edges' (mkLoop (cache st) (means st') (log st))
  = Some (edges', st').
Proof.
  induction edges as [| d rest IH]; intros i st edges' st' Hrun.
  - simpl in Hrun. injection Hrun as <- <-. by destruct st.
  - apply visit_from_cons in Hrun as (d' & st1 & rest' & Hv & Hrest & ->).
    pose proof (IH _ _ _ _ Hrest) as Hagain.
    assert (Hhead : visit' shapes i d' (mkLoop (cache st) (means st') (log st))
                    = Some (d', mkLoop (cache st1) (means st') (log st1))).
    { apply visit_cases in Hv
        as [(e & Hc & -> & ->)
           | (shape & e & mean & calls & Hc & Hs & Hm & -> & ->)];
        pose proof (apply_entry_same_input e d) as Hsame;
        pose proof Hsame as (_ & _ & _ & _ & _ & Ho);
        unfold visit; simpl; rewrite Ho, Hc; simpl.
      - by rewrite apply_entry_idem.
      - rewrite Hs. simpl. rewrite (miss_same_input d _ shape Hsame), Hm. simpl.
        rewrite apply_entry_idem. do 3 f_equal.
        apply insert_id.
        destruct (visit_from_keeps _ _ _ _ _ _ Hrest (edgeinfo_offset d) e)
          as [_ Hkeep]; [simpl; apply lookup_insert_eq |].
        rewrite Hkeep. simpl. apply lookup_insert_eq. }
    simpl. rewrite Hhead. simpl. rewrite Hagain. reflexivity.
Qed.

(** X6: The pass is idempotent: run on the tile it stored, from whatever cache,
    it stores the same tile again, ends with the same cache and makes the
    same calls. *)
Theorem pass_idempotent cache_in tile tile' cache' calls cache_again :
  single_tile cache_in tile = Some (tile', cache', calls) →
  single_tile cache_again tile' = Some (tile', cache', calls).
Proof.
  intros (edges' & st & Hloop & -> & -> & ->)%single_tile_inv.
  apply visit_from_rerun in Hloop. simpl in Hloop.
  unfold add_elevations_to_single_tile. rewrite clear_empty. simpl.
  rewrite Hloop. reflexivity.
Qed.

(** ** Directed edges that share an EdgeInfo *)

Lemma visit_from_later_flags shapes edges :
  ∀ edges2 i st edges' st',
  Forall2 same_reference edges edges2 →
  (∀ j dj dj2, edges !! j = Some dj → edges2 !! j = Some dj2 →
     cache st !! edgeinfo_offset dj = None → first_of_offset edges j →
     same_input dj dj2) →
  visit_from' shapes i edges st = Some (edges', st') →
  ∃ edges2', visit_from' shapes i edges2 st = Some (edges2', st') ∧
             written <$> edges2' = written <$> edges'.
Proof.
  induction edges as [| d rest IH];
    intros edges2 i st edges' st' Hrefs Hfirsts Hrun.
  - apply Forall2_nil_inv_l in Hrefs as ->.
    simpl in Hrun. injection Hrun as <- <-. by exists [].
  - apply Forall2_cons_inv_l in Hrefs
      as (d2 & rest2 & [Ho Hf] & Hrefs & ->).
    apply visit_from_cons in Hrun as (d' & st1 & rest' & Hv & Hrest & ->).
    pose proof (visit_effect _ _ _ _ _ _ Hv) as ((e0 & Hc0 & _) & _ & Hother).
    destruct (IH rest2 (S i) st1 rest' st' Hrefs) as (rest2' & Hrest2 & Hw);
      [| exact Hrest |].
    { intros j dj dj2 Hj Hj2 Hnone Hfirst.
      assert (Hne : edgeinfo_offset dj ≠ edgeinfo_offset d)
        by (intros Heq; rewrite Heq in Hnone; congruence).
      apply (Hfirsts (S j) dj dj2 Hj Hj2).
      - rewrite <- (Hother _ Hne). exact Hnone.
      - apply (first_of_offset_cons _ _ _ dj); auto. }
    assert (Hhead : ∃ e, visit' shapes i d2 st = Some (apply_entry e d2, st1)
                         ∧ d' = apply_entry e d).
    { apply visit_cases in Hv
        as [(e & Hc & -> & ->)
           | (shape & e & mean & calls & Hc & Hs & Hm & -> & ->)];
        exists e; (split; [| reflexivity]); unfold visit; simpl;
        rewrite Ho, Hc; simpl; [reflexivity |].
      assert (Hsame : same_input d d2).
      { apply (Hfirsts 0%nat d d2 eq_refl eq_refl Hc).
        intros k dk dj Hk. lia. }
      rewrite Hs. simpl. rewrite (miss_same_input d d2 shape Hsame), Hm.
      reflexivity. }
    destruct Hhead as (e & Hv2 & ->).
    exists (apply_entry e d2 :: rest2'). split.
    + simpl. rewrite Hv2. simpl. rewrite Hrest2. reflexivity.
    + rewrite !fmap_cons, Hw, !written_apply_entry, Hf. reflexivity.
Qed.

(** X8: Only the first directed edge of an EdgeInfo has its length, tunnel,
    bridge and use looked at.  Change them on any later directed edge of the
    same EdgeInfo, a tunnel flag included, and the pass makes the same calls,
    stores the same mean elevations and writes the same attributes on every
    directed edge. *)
Theorem later_edges_take_the_first cache_in cache_two tile tile2 tile' cache' calls :
  single_tile cache_in tile = Some (tile', cache', calls) →
  shapes tile2 = shapes tile →
  mean_elevations tile2 = mean_elevations tile →
  Forall2 same_reference (directededges tile) (directededges tile2) →
  (∀ j dj dj2, directededges tile !! j = Some dj →
     directededges tile2 !! j = Some dj2 →
     first_of_offset (directededges tile) j → same_input dj dj2) →
  ∃ tile2',
    single_tile cache_two tile2 = Some (tile2', cache', calls) ∧
    written <$> directededges tile2' = written <$> directededges tile' ∧
    mean_elevations tile2' = mean_elevations tile'.
Proof.
  intros (edges' & st & Hloop & -> & -> & ->)%single_tile_inv
         Hshapes Hmeans Hrefs Hfirsts.
  destruct (visit_from_later_flags _ _ _ _ _ _ _ Hrefs
              (λ j dj dj2 Hj Hj2 _ Hfirst, Hfirsts j dj dj2 Hj Hj2 Hfirst) Hloop)
    as (edges2' & Hloop2 & Hw).
  unfold add_elevations_to_single_tile.
  rewrite clear_empty, Hshapes, Hmeans. simpl. rewrite Hloop2. simpl.
  eexists. split; [reflexivity |]. simpl. auto.
Qed.

(** ** How many calls the pass makes *)





End Properties.

(** ** The shared queue *)

Lemma concat_fmap_insert {A B : Type} (f : A → list B) (ws : list A) :
  ∀ k w w' extra, ws !! k = Some w → f w' = f w ++ extra →
  concat (f <$> <[k := w']> ws) ≡ₚ concat (f <$> ws) ++ extra.
Proof.
  induction ws as [| a ws IH]; intros k w w' extra Hk Hf.
  - rewrite lookup_nil in Hk. discriminate.
  - destruct k as [| k]; csimpl in *.
    + injection Hk as ->. rewrite Hf, <- !app_assoc.
      apply Permutation_app_head, Permutation_app_comm.
    + rewrite (IH k w w' extra Hk Hf). by rewrite app_assoc.
Qed.

Lemma concat_fmap_insert_same {A B : Type} (f : A → list B) (ws : list A) :
  ∀ k w w', ws !! k = Some w → f w' = f w →
  concat (f <$> <[k := w']> ws) = concat (f <$> ws).
Proof.
  induction ws as [| a ws IH]; intros k w w' Hk Hf; [reflexivity |].
  destruct k as [| k]; csimpl in *.
  - injection Hk as ->. by rewrite Hf.
  - by rewrite (IH k w w' Hk Hf).
Qed.

Lemma sum_list_fmap_insert {A : Type} (f : A → nat) (ws : list A) :
  ∀ k w w', ws !! k = Some w →
  (sum_list (f <$> <[k := w']> ws) + f w = sum_list (f <$> ws) + f w')%nat.
Proof.
  induction ws as [| a ws IH]; intros k w w' Hk.
  - rewrite lookup_nil in Hk. discriminate.
  - destruct k as [| k]; csimpl in *.
    + injection Hk as ->. lia.
    + specialize (IH k w w' Hk). lia.
Qed.

Section Queue.

Context {PointLL : Type}.
Variable resample_spherical_polyline : list PointLL → float → list PointLL.
Variable get_all : list PointLL → list float.
Variable weighted_grade : list float → float → grades_t.
Variable get_no_data_value : float.
Variable kNoElevationData : float.

#[local] Abbreviation step' :=
  (step resample_spherical_polyline get_all weighted_grade
     get_no_data_value kNoElevationData).
#[local] Abbreviation steps' :=
  (steps resample_spherical_polyline get_all weighted_grade
     get_no_data_value kNoElevationData).
#[local] Abbreviation Build' :=
  (Build resample_spherical_polyline get_all weighted_grade
     get_no_data_value kNoElevationData).
#[local] Abbreviation steps_in' :=
  (steps_in resample_spherical_polyline get_all weighted_grade
     get_no_data_value kNoElevationData).
#[local] Abbreviation single_tile' :=
  (add_elevations_to_single_tile resample_spherical_polyline get_all
     weighted_grade get_no_data_value kNoElevationData).

Lemma start_drains tile_ids nthreads (dir : gmap GraphId (@Tile PointLL)) :
  drains tile_ids nthreads (start tile_ids nthreads dir).
Proof.
  split; simpl.
  - apply length_replicate.
  - exists []. split; [reflexivity |]. unfold all_popped. simpl.
    induction nthreads as [| n IH]; [reflexivity | exact IH].
  - apply Forall_replicate. reflexivity.
  - intros (w & [-> _]%elem_of_replicate & Hw)%Exists_exists. discriminate.
Qed.

Lemma Exists_insert_inv {A : Type} (P : A → Prop) (l : list A) k x :
  Exists P (<[k := x]> l) → P x ∨ Exists P l.
Proof.
  intros (y & Hin & Hy)%Exists_exists.
  apply list_elem_of_lookup_1 in Hin as (i & Hi).
  destruct (decide (k = i)) as [-> | Hne].
  - left. pose proof (lookup_lt_Some _ _ _ Hi) as Hlt.
    rewrite length_insert in Hlt.
    rewrite list_lookup_insert_eq in Hi by exact Hlt.
    by injection Hi as ->.
  - right. rewrite list_lookup_insert_ne in Hi by done.
    apply Exists_exists. exists y. split; [| exact Hy].
    by eapply list_elem_of_lookup_2.
Qed.

Lemma step_drains tile_ids nthreads p q :
  drains tile_ids nthreads p → step' p q → drains tile_ids nthreads q.
Proof.
  intros [Hlen (taken & Hids & Hpop) Hstored Hret] Hstep.
  destruct Hstep as [k w Hk Hst Hq | k w tile_id rest Hk Hst Hq
                     | k w tile_id tile tile' cache' calls Hk Hst Hdir Hrun].
  - split; simpl.
    + by rewrite length_insert.
    + exists taken. split; [exact Hids |].
      unfold all_popped. simpl.
      by rewrite (concat_fmap_insert_same popped _ k w).
    + apply Forall_insert; [exact Hstored |]. simpl.
      pose proof (Forall_lookup_1 _ _ _ _ Hstored Hk) as Hw.
      unfold holding in *. rewrite Hst in Hw. simpl in *. exact Hw.
    + intros _. exact Hq.
  - split; simpl.
    + by rewrite length_insert.
    + exists (taken ++ [tile_id]). split.
      * rewrite Hids, Hq, <- app_assoc. reflexivity.
      * unfold all_popped. simpl.
        etrans; [eapply (concat_fmap_insert popped); [exact Hk | reflexivity] |].
        fold (all_popped p). by rewrite Hpop.
    + apply Forall_insert; [exact Hstored |]. simpl.
      pose proof (Forall_lookup_1 _ _ _ _ Hstored Hk) as Hw.
      unfold holding in *. rewrite Hst in Hw. simpl in *.
      rewrite app_nil_r in Hw. by rewrite Hw.
    + intros [Hw | Hex]%Exists_insert_inv; [discriminate |].
      specialize (Hret Hex). congruence.
  - split; simpl.
    + by rewrite length_insert.
    + exists taken. split; [exact Hids |].
      unfold all_popped. simpl.
      by rewrite (concat_fmap_insert_same popped _ k w).
    + apply Forall_insert; [exact Hstored |]. simpl.
      pose proof (Forall_lookup_1 _ _ _ _ Hstored Hk) as Hw.
      unfold holding in *. rewrite Hst in Hw. simpl in *.
      rewrite app_nil_r. exact Hw.
    + intros [Hw | Hex]%Exists_insert_inv; [discriminate | auto].
Qed.

Lemma steps_drains tile_ids nthreads p q :
  drains tile_ids nthreads p → steps' p q → drains tile_ids nthreads q.
Proof.
  intros Hp Hsteps. induction Hsteps as [p | p q r _ IH Hstep]; [exact Hp |].
  exact (step_drains _ _ _ _ (IH Hp) Hstep).
Qed.

Lemma steps_front p q r : step' p q → steps' q r → steps' p r.
Proof.
  intros Hstep Hsteps. induction Hsteps as [q | q r s _ IH Hlast].
  - eapply steps_step; [apply steps_refl | exact Hstep].
  - eapply steps_step; [exact (IH Hstep) | exact Hlast].
Qed.

(** Every step uses up work: no schedule of the threads runs for ever. *)
Lemma step_work_left p q : step' p q → (work_left q < work_left p)%nat.
Proof.
  unfold work_left.
  intros [k w Hk Hst Hq | k w tile_id rest Hk Hst Hq
          | k w tile_id tile tile' cache' calls Hk Hst Hdir Hrun]; simpl;
    match goal with
    | |- context [<[k := ?w']> (workers p)] =>
        pose proof (sum_list_fmap_insert (λ w, ahead (status w))
                      (workers p) k w w' Hk) as Hsum
    end;
    simpl in Hsum; rewrite Hst in Hsum; simpl in Hsum;
    try rewrite Hq; simpl; lia.
Qed.

(** C9: however the threads interleave, the ids taken from the queue are the
    front of the list the pool started on, each taken by one pop; if the list
    holds no id twice, no id is taken twice; and once the threads, one at
    least, have all returned, the queue is empty, every id of the list has
    been taken and the tile of every id taken has been stored. *)
Theorem queue_drained tile_ids nthreads dir p :
  steps' (start tile_ids nthreads dir) p →
  (∃ taken, tile_ids = taken ++ tilequeue p ∧ all_popped p ≡ₚ taken) ∧
  (NoDup tile_ids → NoDup (all_popped p)) ∧
  ((1 ≤ nthreads)%nat → joined p →
   tilequeue p = [] ∧ all_popped p ≡ₚ tile_ids ∧
   all_processed p = all_popped p).
Proof.
  intros Hsteps.
  destruct (steps_drains _ _ _ _ (start_drains tile_ids nthreads dir) Hsteps)
    as [Hlen (taken & Hids & Hpop) Hstored Hret].
  split; [eauto |]. split.
  - intros Hnd. rewrite Hpop. rewrite Hids in Hnd.
    by apply NoDup_app in Hnd as (? & _ & _).
  - intros Hn Hjoined. unfold joined in Hjoined.
    assert (Hq : tilequeue p = []).
    { apply Hret. destruct (workers p) as [| w ws]; simpl in Hlen; [lia |].
      apply Exists_cons_hd. by apply Forall_cons_1 in Hjoined as [? _]. }
    split; [exact Hq |]. split.
    + rewrite Hpop, Hids, Hq. by rewrite app_nil_r.
    + unfold all_processed, all_popped. f_equal.
      clear Hlen Hpop Hret Hq Hids.
      induction (workers p) as [| w ws IH]; [reflexivity |].
      apply Forall_cons_1 in Hjoined as [Hw Hws].
      apply Forall_cons_1 in Hstored as [Hs Hss].
      csimpl. rewrite (IH Hss Hws). f_equal.
      unfold holding in Hs. rewrite Hw in Hs. by rewrite app_nil_r in Hs.
Qed.

(** ** [Build] without elevation data *)

(** C8: with no elevation path in the configuration, or one that does not
    exist, [Build] returns, and all it has done is to log the warning: the
    tiles are as they were and no thread has been started. *)
Theorem build_without_elevation pt tile_ids w :
  (additional_data_elevation pt = None ∨
   ∃ elevation, additional_data_elevation pt = Some elevation ∧
                path_exists w elevation = false) →
  let warned :=
    add_message (LOG_WARN "Elevation storage directory does not exist") w in
  Build' pt tile_ids w warned ∧
  tiles warned = tiles w ∧
  threads_started warned = threads_started w ∧
  messages warned
  = messages w ++ [LOG_WARN "Elevation storage directory does not exist"] ∧
  ∀ w', Build' pt tile_ids w w' → w' = warned.
Proof.
  intros Hno. cbv zeta.
  assert (Hguard : no_elevation pt w = true).
  { unfold no_elevation. destruct Hno as [-> | (e & -> & ->)]; reflexivity. }
  split; [by apply Build_skipped |].
  do 3 (split; [reflexivity |]).
  intros w' [_ | ids p Hyes _ _ _]; [reflexivity | congruence].
Qed.

(** ** The order of the queue *)

Lemma steps_in_steps n p q : steps_in' n p q → steps' p q.
Proof.
  induction 1 as [p | n p q r _ IH Hstep]; [apply steps_refl |].
  eapply steps_step; [exact IH | exact Hstep].
Qed.

Lemma steps_order tile_ids nthreads (dir : gmap GraphId (@Tile PointLL)) p :
  steps' (start tile_ids nthreads dir) p →
  ∃ taken, tile_ids = taken ++ tilequeue p ∧
           Forall (λ w, popped w `sublist_of` taken) (workers p).
Proof.
  intros Hsteps. remember (start tile_ids nthreads dir) as p0 eqn:Hp0.
  induction Hsteps as [p | p q r _ IH Hstep]; subst.
  - exists []. split; [reflexivity |]. simpl.
    apply Forall_replicate. simpl. constructor.
  - destruct (IH eq_refl) as (taken & Hids & Hall).
    destruct Hstep as [k w Hk Hst Hq | k w tile_id rest Hk Hst Hq
                       | k w tile_id tile tile' cache' calls Hk Hst Hdir Hrun];
      pose proof (Forall_lookup_1 _ _ _ _ Hall Hk) as Hw; simpl.
    + exists taken. split; [exact Hids |]. by apply Forall_insert.
    + exists (taken ++ [tile_id]). split.
      * rewrite Hids, Hq, <- app_assoc. reflexivity.
      * apply Forall_insert.
        -- eapply Forall_impl; [exact Hall |]. intros w' Hw'.
           by apply sublist_inserts_r.
        -- simpl. by apply sublist_app.
    + exists taken. split; [exact Hids |]. by apply Forall_insert.
Qed.

(** X9: Whatever the interleaving, a worker takes its ids in the order of the
    list the pool started on, and stores their tiles in the order it took
    them, one after the other. *)
Theorem worker_keeps_queue_order tile_ids nthreads dir p k w :
  steps' (start tile_ids nthreads dir) p →
  workers p !! k = Some w →
  popped w `sublist_of` tile_ids ∧
  processed w `prefix_of` popped w ∧
  (length (popped w) ≤ S (length (processed w)))%nat.
Proof.
  intros Hsteps Hk.
  destruct (steps_order _ _ _ _ Hsteps) as (taken & Hids & Hall).
  destruct (steps_drains _ _ _ _ (start_drains tile_ids nthreads dir) Hsteps)
    as [_ _ Hstored _].
  pose proof (Forall_lookup_1 _ _ _ _ Hall Hk) as Hsub.
  pose proof (Forall_lookup_1 _ _ _ _ Hstored Hk) as Hw. simpl in Hw.
  split; [rewrite Hids; by apply sublist_inserts_r |].
  split; [rewrite Hw; by apply prefix_app_r |].
  rewrite Hw, length_app. unfold holding. destruct (status w); simpl; lia.
Qed.

(** ** The length of a run *)

Lemma step_count p q :
  step' p q →
  (S (length (all_popped p) + length (all_processed p) + returned_count p)
   = length (all_popped q) + length (all_processed q) + returned_count q)%nat.
Proof.
  unfold all_popped, all_processed, returned_count.
  intros [k w Hk Hst Hq | k w tile_id rest Hk Hst Hq
          | k w tile_id tile tile' cache' calls Hk Hst Hdir Hrun]; simpl;
    match goal with
    | |- context [<[k := ?w']> (workers p)] =>
        pose proof (sum_list_fmap_insert (λ w, returned (status w))
                      (workers p) k w w' Hk) as Hsum
    end;
    simpl in Hsum; rewrite Hst in Hsum; simpl in Hsum.
  - rewrite (concat_fmap_insert_same popped _ k w) by done.
    rewrite (concat_fmap_insert_same processed _ k w) by done. lia.
  - rewrite (concat_fmap_insert_same processed _ k w) by done.
    erewrite (Permutation_length
                (concat_fmap_insert popped _ k w _ [tile_id] Hk _)).
    + rewrite length_app. simpl. lia.
  - rewrite (concat_fmap_insert_same popped _ k w) by done.
    erewrite (Permutation_length
                (concat_fmap_insert processed _ k w _ [tile_id] Hk _)).
    + rewrite length_app. simpl. lia.
  Unshelve. all: reflexivity.
Qed.

Lemma steps_in_count n p q :
  steps_in' n p q →
  (n + (length (all_popped p) + length (all_processed p) + returned_count p)
   = length (all_popped q) + length (all_processed q) + returned_count q)%nat.
Proof.
  induction 1 as [p | n p q r _ IH Hstep]; [reflexivity |].
  apply step_count in Hstep. lia.
Qed.

Lemma concat_replicate_nil {A B : Type} (f : A → list B) (x : A) n :
  f x = [] → concat (f <$> replicate n x) = [].
Proof. intros Hf. induction n as [| n IH]; csimpl; [done |]. by rewrite Hf, IH. Qed.

Lemma joined_drained tile_ids nthreads (p : @Pool PointLL) :
  drains tile_ids nthreads p → (1 ≤ nthreads)%nat → joined p →
  tilequeue p = [] ∧ all_popped p ≡ₚ tile_ids ∧ all_processed p = all_popped p.
Proof.
  intros [Hlen (taken & Hids & Hpop) Hstored Hret] Hn Hjoined.
  unfold joined in Hjoined.
  assert (Hq : tilequeue p = []).
  { apply Hret. destruct (workers p) as [| w ws]; simpl in Hlen; [lia |].
    apply Exists_cons_hd. by apply Forall_cons_1 in Hjoined as [? _]. }
  split; [exact Hq |]. split.
  - rewrite Hpop, Hids, Hq. by rewrite app_nil_r.
  - unfold all_processed, all_popped. f_equal.
    clear Hlen Hpop Hret Hq Hids.
    induction (workers p) as [| w ws IH]; [reflexivity |].
    apply Forall_cons_1 in Hjoined as [Hw Hws].
    apply Forall_cons_1 in Hstored as [Hs Hss].
    csimpl. rewrite (IH Hss Hws). f_equal.
    unfold holding in Hs. rewrite Hw in Hs. by rewrite app_nil_r in Hs.
Qed.

Lemma processed_le_popped (ws : list Worker) :
  Forall (λ w, popped w = processed w ++ holding w) ws →
  (length (concat (processed <$> ws)) ≤ length (concat (popped <$> ws)))%nat.
Proof.
  induction 1 as [| w ws Hw _ IH]; csimpl; [lia |].
  rewrite !length_app, Hw, length_app. lia.
Qed.

Lemma returned_le_workers (ws : list Worker) :
  (sum_list ((λ w, returned (status w)) <$> ws) ≤ length ws)%nat ∧
  (Forall (λ w, status w = Returned) ws →
   sum_list ((λ w, returned (status w)) <$> ws) = length ws).
Proof.
  induction ws as [| w ws [IHle IHeq]]; csimpl; [auto |]. split.
  - destruct (status w); simpl; lia.
  - intros [Hw Hws]%Forall_cons_1. rewrite Hw, (IHeq Hws). reflexivity.
Qed.

(** X10: A run of [n] steps has taken [n] minus the tiles stored and the threads
    returned ids from the queue; it cannot be longer than [2 K + N] steps for
    [K] ids and [N] threads, and a run that ends with all of at least one
    thread returned has exactly that length: a pop and a tile for every id,
    and one look at the empty queue for every thread. *)
Theorem run_length tile_ids nthreads dir n p :
  steps_in' n (start tile_ids nthreads dir) p →
  (n = length (all_popped p) + length (all_processed p) + returned_count p)%nat ∧
  (n ≤ 2 * length tile_ids + nthreads)%nat ∧
  ((1 ≤ nthreads)%nat → joined p → n = (2 * length tile_ids + nthreads)%nat).
Proof.
  intros Hrun.
  pose proof (steps_in_count _ _ _ Hrun) as Hcount.
  pose proof (steps_drains _ _ _ _ (start_drains tile_ids nthreads dir)
                (steps_in_steps _ _ _ Hrun)) as Hdrains.
  assert (Hstart :
    (length (all_popped (start tile_ids nthreads dir))
     + length (all_processed (start tile_ids nthreads dir))
     + returned_count (start tile_ids nthreads dir) = 0)%nat).
  { unfold all_popped, all_processed, returned_count. simpl.
    rewrite !concat_replicate_nil by done. simpl.
    clear. induction nthreads as [| m IH]; csimpl; [done | exact IH]. }
  rewrite Hstart, Nat.add_0_r in Hcount.
  split; [lia |].
  pose proof Hdrains as [Hlen (taken & Hids & Hpop) Hstored _].
  pose proof (processed_le_popped _ Hstored) as Hle.
  fold (all_processed p) (all_popped p) in Hle.
  destruct (returned_le_workers (workers p)) as [Hret Hall].
  fold (returned_count p) in Hret, Hall.
  apply Permutation_length in Hpop.
  assert (Hk : length tile_ids = (length taken + length (tilequeue p))%nat)
    by (by rewrite Hids, length_app).
  split; [lia |].
  intros Hn Hjoined.
  destruct (joined_drained _ _ _ Hdrains Hn Hjoined) as (Hq & _ & Heq).
  rewrite Hq in Hk. simpl in Hk.
  rewrite (Hall Hjoined) in Hcount. rewrite Heq in Hcount, Hle. lia.
Qed.

Lemma steps_in_front n p q r :
  step' p q → steps_in' n q r → steps_in' (S n) p r.
Proof.
  intros Hstep Hrun. induction Hrun as [q | n q r s _ IH Hlast].
  - eapply steps_in_S; [apply steps_in_O | exact Hstep].
  - eapply steps_in_S; [exact (IH Hstep) | exact Hlast].
Qed.

(** ** The tiles a run leaves *)

Lemma popped_split (ws : list Worker) :
  Forall (λ w, popped w = processed w ++ holding w) ws →
  concat (popped <$> ws)
  ≡ₚ concat (processed <$> ws) ++ concat (holding <$> ws).
Proof.
  induction 1 as [| w ws Hw _ IH]; csimpl; [done |].
  rewrite Hw, IH, <- !app_assoc. apply Permutation_app_head.
  rewrite !app_assoc. apply Permutation_app_tail, Permutation_app_comm.
Qed.

Lemma holding_elem (ws : list Worker) :
  ∀ k w tile_id, ws !! k = Some w → status w = Popped tile_id →
  tile_id ∈ concat (holding <$> ws).
Proof.
  induction ws as [| a ws IH]; intros k w tile_id Hk Hst.
  - rewrite lookup_nil in Hk. discriminate.
  - csimpl. apply elem_of_app. destruct k as [| k]; simpl in Hk.
    + injection Hk as ->. left. unfold holding. rewrite Hst.
      apply list_elem_of_singleton. reflexivity.
    + right. exact (IH k w tile_id Hk Hst).
Qed.

Lemma steps_tiles tile_ids nthreads (dir : gmap GraphId (@Tile PointLL)) p :
  NoDup tile_ids →
  steps' (start tile_ids nthreads dir) p →
  ∀ tile_id,
    (tile_id ∉ all_processed p → tile_dir p !! tile_id = dir !! tile_id) ∧
    (tile_id ∈ all_processed p →
     ∃ tile tile' cache' calls,
       dir !! tile_id = Some tile ∧
       single_tile' ∅ tile = Some (tile', cache', calls) ∧
       tile_dir p !! tile_id = Some tile').
Proof.
  intros Hnd Hsteps. remember (start tile_ids nthreads dir) as p0 eqn:Hp0.
  induction Hsteps as [p | p q r Hpq IH Hstep]; subst.
  - intros id. unfold all_processed. simpl.
    rewrite concat_replicate_nil by done.
    split; [done | by intros ?%elem_of_nil].
  - specialize (IH eq_refl).
    pose proof (steps_drains _ _ _ _ (start_drains tile_ids nthreads dir) Hpq)
      as [_ (taken & Hids & Hpop) Hstored _].
    destruct Hstep as [k w Hk Hst Hq | k w tile_id rest Hk Hst Hq
                       | k w tile_id tile tile' cache' calls Hk Hst Hdir Hrun];
      intros id; unfold all_processed; simpl.
    + rewrite (concat_fmap_insert_same processed _ k w) by done. apply IH.
    + rewrite (concat_fmap_insert_same processed _ k w) by done. apply IH.
    + assert (Hnew : tile_id ∉ all_processed q).
      { intros Hin.
        assert (Hnd' : NoDup (all_processed q ++ all_holding q)).
        { unfold all_processed, all_holding.
          rewrite <- (popped_split _ Hstored). fold (all_popped q).
          rewrite Hpop. rewrite Hids in Hnd.
          by apply NoDup_app in Hnd as (? & _ & _). }
        apply NoDup_app in Hnd' as (_ & Hdisj & _).
        apply (Hdisj tile_id Hin). by eapply holding_elem. }
      assert (Hperm : concat (processed <$>
                        <[k := mkWorker AtLoopHead cache' (popped w)
                                  (processed w ++ [tile_id])]> (workers q))
                      ≡ₚ all_processed q ++ [tile_id])
        by (eapply (concat_fmap_insert processed); [exact Hk | reflexivity]).
      rewrite Hperm, elem_of_app, list_elem_of_singleton.
      destruct (decide (id = tile_id)) as [-> | Hne].
      * split; [tauto |]. intros _.
        destruct (IH tile_id) as [Hsame _].
        exists tile, tile', cache', calls.
        split; [rewrite <- (Hsame Hnew); exact Hdir |].
        split; [| apply lookup_insert_eq].
        rewrite <- Hrun. apply single_tile_any_cache.
      * rewrite lookup_insert_ne by done.
        destruct (IH id) as [Hsame Hdone].
        split; [tauto |]. intros [Hin | ?]; [auto | done].
Qed.

(** X11: With no id twice in the list, a run that ends with all of at least one
    thread returned has stored, for every id of the list, the tile the pass
    makes of the tile the directory held for that id when the pool started,
    with the elevation flag set. *)
Theorem stored_tiles tile_ids nthreads dir p tile_id :
  NoDup tile_ids →
  (1 ≤ nthreads)%nat →
  steps' (start tile_ids nthreads dir) p →
  joined p →
  tile_id ∈ tile_ids →
  ∃ tile tile' cache' calls,
    dir !! tile_id = Some tile ∧
    single_tile' ∅ tile = Some (tile', cache', calls) ∧
    tile_dir p !! tile_id = Some tile' ∧
    has_elevation tile' = true.
Proof.
  intros Hnd Hn Hsteps Hjoined Hin.
  pose proof (steps_drains _ _ _ _ (start_drains tile_ids nthreads dir) Hsteps)
    as Hdrains.
  destruct (joined_drained _ _ _ Hdrains Hn Hjoined) as (_ & Hpop & Heq).
  destruct (steps_tiles _ _ _ _ Hnd Hsteps tile_id) as [_ Hdone].
  destruct Hdone as (tile & tile' & cache' & calls & Hdir & Hrun & Hp).
  { rewrite Heq, Hpop. exact Hin. }
  exists tile, tile', cache', calls. repeat (split; [assumption |]).
  apply single_tile_inv in Hrun as (edges' & st & _ & -> & _). reflexivity.
Qed.

(** X12: With no id twice in the list, the tile directory a complete run leaves
    does not depend on the number of threads or on how they interleave. *)
Theorem tiles_independent_of_schedule tile_ids dir n1 n2 p1 p2 :
  NoDup tile_ids →
  (1 ≤ n1)%nat → (1 ≤ n2)%nat →
  steps' (start tile_ids n1 dir) p1 → joined p1 →
  steps' (start tile_ids n2 dir) p2 → joined p2 →
  tile_dir p1 = tile_dir p2.
Proof.
  intros Hnd Hn1 Hn2 Hsteps1 Hjoined1 Hsteps2 Hjoined2.
  pose proof (steps_drains _ _ _ _ (start_drains tile_ids n1 dir) Hsteps1) as Hd1.
  pose proof (steps_drains _ _ _ _ (start_drains tile_ids n2 dir) Hsteps2) as Hd2.
  destruct (joined_drained _ _ _ Hd1 Hn1 Hjoined1) as (_ & Hpop1 & Heq1).
  destruct (joined_drained _ _ _ Hd2 Hn2 Hjoined2) as (_ & Hpop2 & Heq2).
  apply map_eq. intros id.
  destruct (steps_tiles _ _ _ _ Hnd Hsteps1 id) as [Hsame1 Hdone1].
  destruct (steps_tiles _ _ _ _ Hnd Hsteps2 id) as [Hsame2 Hdone2].
  rewrite Heq1, Hpop1 in Hsame1, Hdone1. rewrite Heq2, Hpop2 in Hsame2, Hdone2.
  destruct (decide (id ∈ tile_ids)) as [Hin | Hout].
  - destruct (Hdone1 Hin) as (t1 & t1' & c1 & l1 & Hdir1 & Hrun1 & ->).
    destruct (Hdone2 Hin) as (t2 & t2' & c2 & l2 & Hdir2 & Hrun2 & ->).
    congruence.
  - by rewrite (Hsame1 Hout), (Hsame2 Hout).
Qed.

Lemma steps_frame tile_ids nthreads (dir : gmap GraphId (@Tile PointLL)) p :
  steps' (start tile_ids nthreads dir) p →
  ∀ tile_id, tile_id ∉ all_popped p → tile_dir p !! tile_id = dir !! tile_id.
Proof.
  intros Hsteps. remember (start tile_ids nthreads dir) as p0 eqn:Hp0.
  induction Hsteps as [p | p q r Hpq IH Hstep]; subst; [done |].
  specialize (IH eq_refl).
  pose proof (steps_drains _ _ _ _ (start_drains tile_ids nthreads dir) Hpq)
    as [_ _ Hstored _].
  destruct Hstep as [k w Hk Hst Hq | k w tile_id rest Hk Hst Hq
                     | k w tile_id tile tile' cache' calls Hk Hst Hdir Hrun];
    intros id; unfold all_popped; simpl.
  - rewrite (concat_fmap_insert_same popped _ k w) by done. apply IH.
  - assert (Hperm : concat (popped <$>
                      <[k := mkWorker (Popped tile_id) (geo_attribute_cache w)
                                (popped w ++ [tile_id]) (processed w)]>
                        (workers q))
                    ≡ₚ all_popped q ++ [tile_id])
      by (eapply (concat_fmap_insert popped); [exact Hk | reflexivity]).
    rewrite Hperm, not_elem_of_app. intros [Hout _]. by apply IH.
  - rewrite (concat_fmap_insert_same popped _ k w) by done.
    intros Hout. fold (all_popped q) in Hout.
    assert (Hin : tile_id ∈ all_popped q).
    { unfold all_popped. rewrite (popped_split _ Hstored).
      apply elem_of_app. right. by eapply holding_elem. }
    rewrite lookup_insert_ne by (intros ->; done). by apply IH.
Qed.

(** X13: A run never writes a tile whose id is not in the list the pool started
    on, whether the list names ids twice or not. *)
Theorem untouched_tiles tile_ids nthreads dir p tile_id :
  steps' (start tile_ids nthreads dir) p →
  tile_id ∉ tile_ids →
  tile_dir p !! tile_id = dir !! tile_id.
Proof.
  intros Hsteps Hout. apply (steps_frame _ _ _ _ Hsteps).
  destruct (steps_drains _ _ _ _ (start_drains tile_ids nthreads dir) Hsteps)
    as [_ (taken & Hids & Hpop) _ _].
  rewrite Hpop. intros Hin. apply Hout. rewrite Hids.
  apply elem_of_app. by left.
Qed.

(** ** [Build] with elevation data *)

Lemma nthreads_of_pos pt (w : @World PointLL) : 1 ≤ nthreads_of pt w.
Proof. unfold nthreads_of. lia. Qed.

(** X15: With elevation data [Build] starts at least one thread, the configured
    number if that is one or more, logs the two notices, and writes no tile
    outside the list it was given. *)
Theorem build_with_elevation pt tile_ids w w' :
  no_elevation pt w = false →
  Build' pt tile_ids w w' →
  threads_started w' = (threads_started w + Z.to_nat (nthreads_of pt w))%nat ∧
  (1 ≤ Z.to_nat (nthreads_of pt w))%nat ∧
  (∀ n, mjolnir_concurrency pt = Some n → 1 ≤ n → nthreads_of pt w = n) ∧
  (∃ ntiles : nat,
     messages w'
     = messages w ++
       [LOG_INFO ("Adding elevation to " +:+ pretty ntiles +:+
                  " tiles with " +:+ pretty (nthreads_of pt w) +:+
                  " threads...");
        LOG_INFO "Finished"]) ∧
  (tile_ids ≠ [] →
   ∀ tile_id, tile_id ∉ tile_ids → tiles w' !! tile_id = tiles w !! tile_id).
Proof.
  intros Hyes [Hno | ids p _ Hids Hsteps Hjoined]; [congruence |]. simpl.
  pose proof (nthreads_of_pos pt w) as Hpos.
  split; [reflexivity |]. split; [lia |]. split.
  { intros n Hn Hle. unfold nthreads_of. rewrite Hn. simpl. lia. }
  split; [by eexists |].
  intros Hne tile_id Hout.
  destruct (decide (tile_ids = [])) as [-> | _]; [done |]. subst ids.
  eapply (steps_frame _ _ _ _ Hsteps).
  destruct (steps_drains _ _ _ _ (start_drains _ _ _) Hsteps)
    as [_ (taken & Htaken & Hpop) _ _].
  rewrite Hpop. intros Hin. apply Hout. rewrite Htaken.
  apply elem_of_app. by left.
Qed.

(** X16: Called with an empty list and with elevation data, [Build] runs the
    pass on every tile of the directory, each once: every tile it leaves is
    what the pass makes of the tile that was there. *)
Theorem build_whole_dataset pt w w' tile_id tile :
  no_elevation pt w = false →
  Build' pt [] w w' →
  tiles w !! tile_id = Some tile →
  ∃ tile' cache' calls,
    single_tile' ∅ tile = Some (tile', cache', calls) ∧
    tiles w' !! tile_id = Some tile'.
Proof.
  intros Hyes [Hno | ids p _ Hids Hsteps Hjoined] Htile; [congruence |]. simpl.
  destruct (decide (@nil GraphId = [])) as [_ | Hne]; [| done].
  assert (Hnd : NoDup ids) by (rewrite Hids; apply NoDup_elements).
  assert (Hin : tile_id ∈ ids)
    by (rewrite Hids; apply elem_of_elements; by eapply elem_of_dom_2).
  assert (Hn : (1 ≤ Z.to_nat (nthreads_of pt w))%nat)
    by (pose proof (nthreads_of_pos pt w); lia).
  pose proof (steps_drains _ _ _ _ (start_drains _ _ _) Hsteps) as Hdrains.
  destruct (joined_drained _ _ _ Hdrains Hn Hjoined) as (_ & Hpop & Heq).
  destruct (steps_tiles _ _ _ _ Hnd Hsteps tile_id) as [_ Hdone].
  destruct Hdone as (tile0 & tile' & cache' & calls & Hdir & Hrun & Hp).
  { rewrite Heq, Hpop. exact Hin. }
  exists tile', cache', calls. split; [| exact Hp]. congruence.
Qed.

End Queue.

(** * The statements on the hill *)

Lemma hill_run :
  Hill.single_tile ∅ Hill.tile
  = Some (Hill.tile_after, Hill.cache_after, Hill.log_after).
Proof. vm_compute. reflexivity. Qed.

Lemma hill_flat_run :
  Hill.single_tile ∅ Hill.flat_tile
  = Some (Hill.flat_tile_after, Hill.flat_cache_after, Hill.flat_log_after).
Proof. vm_compute. reflexivity. Qed.

Lemma first_of_offset_take edges j dj :
  edges !! j = Some dj →
  Forall (λ d, edgeinfo_offset d ≠ edgeinfo_offset dj) (take j edges) →
  first_of_offset edges j.
Proof.
  intros Hj Hall k dk dj' Hk Hdk Hdj'.
  assert (dj' = dj) as -> by congruence.
  apply (Forall_lookup_1 _ _ k dk Hall).
  apply lookup_take_Some. auto.
Qed.

Ltac first_on_hill :=
  eapply first_of_offset_take; [reflexivity | repeat constructor; cbn; lia].

Ltac sampled_on_hill :=
  let H := fresh in intros [H | H]; cbn in H; discriminate H.

Lemma tunnel_or_ferry_is_flat_witness :
  (∀ shape,
     cache_miss Hill.resample Hill.get_all Hill.weighted_grade
       Hill.no_data_value Hill.kNoElevationData
       (Hill.edge 5 true false Hill.road true 16) shape
     = Some (mkEntry flat_bucket flat_bucket 0 0 0 0,
             mean_of_zero_tuple Hill.no_data_value Hill.kNoElevationData,
             [SetMeanElevation 16
                (mean_of_zero_tuple Hill.no_data_value Hill.kNoElevationData)])) ∧
  calls_for (directededges Hill.tile) 16 Hill.log_after
  = [(2%nat, SetMeanElevation 16
               (mean_of_zero_tuple Hill.no_data_value Hill.kNoElevationData))] ∧
  Hill.cache_after !! 16 = Some (mkEntry flat_bucket flat_bucket 0 0 0 0) ∧
  (∀ k dk, directededges Hill.tile !! k = Some dk →
     edgeinfo_offset dk = 16 →
     written <$> directededges Hill.tile_after !! k
     = Some (flat_bucket, 0%float, 0%float)) ∧
  mean_elevations Hill.tile_after !! 16
  = Some (mean_of_zero_tuple Hill.no_data_value Hill.kNoElevationData).
Proof.
  apply (tunnel_or_ferry_is_flat _ _ _ _ _ ∅ Hill.tile _ _ _ 2
           (Hill.edge 5 true false Hill.road true 16) hill_run).
  - reflexivity.
  - first_on_hill.
  - left. reflexivity.
Defined.

(** The tunnel of the hill tile: the mean elevation stored for its EdgeInfo
    is 0, neither [kNoElevationData] nor the no-data value of the height
    service. *)
Lemma tunnel_mean_is_not_no_data :
  Hill.single_tile ∅ Hill.tile
  = Some (Hill.tile_after, Hill.cache_after, Hill.log_after) ∧
  directededges Hill.tile !! 2%nat
  = Some (Hill.edge 5 true false Hill.road true 16) ∧
  mean_elevations Hill.tile_after !! 16 = Some 0%float ∧
  mean_elevations Hill.tile_after !! 16 ≠ Some Hill.kNoElevationData ∧
  mean_elevations Hill.tile_after !! 16 ≠ Some Hill.no_data_value.
Proof.
  split; [exact hill_run |]. split; [reflexivity |].
  assert (Hmean : mean_elevations Hill.tile_after !! 16 = Some 0%float)
    by (vm_compute; reflexivity).
  split; [exact Hmean |]. rewrite Hmean.
  split; intros [= H]; apply (f_equal (PrimFloat.eqb 0)) in H;
    vm_compute in H; discriminate H.
Qed.

Lemma tunnel_or_ferry_precedes_short_edge_witness :
  de_length (Hill.edge 5 true false Hill.road true 16) < kMinimumInterval ∧
  (∀ shape,
     estimate_grades Hill.resample Hill.get_all Hill.weighted_grade
       (Hill.edge 5 true false Hill.road true 16) shape
     = Some (zero_grades, zero_grades, [])) ∧
  count_calls is_GetAll (calls_for (directededges Hill.tile) 16 Hill.log_after)
  = 0%nat ∧
  count_calls is_WeightedGrade
    (calls_for (directededges Hill.tile) 16 Hill.log_after) = 0%nat ∧
  mean_elevations Hill.tile_after !! 16
  = Some (mean_of_zero_tuple Hill.no_data_value Hill.kNoElevationData) ∧
  (PrimFloat.eqb 0 Hill.no_data_value = false →
   mean_elevations Hill.tile_after !! 16 = Some (get3 zero_grades)).
Proof.
  split; [reflexivity |].
  apply (tunnel_or_ferry_precedes_short_edge _ _ _ _ _ ∅ Hill.tile _ _ _ 2
           (Hill.edge 5 true false Hill.road true 16) hill_run).
  - reflexivity.
  - first_on_hill.
  - left. reflexivity.
Defined.

Lemma short_edge_keeps_mean_witness :
  ∃ shape a b,
    shapes Hill.tile !! 32 = Some shape ∧
    head shape = Some a ∧ last shape = Some b ∧
    let computed := Hill.weighted_grade (Hill.get_all [a; b]) (Cxx.double_of_uint32 8) in
    let mean_elevation := Cxx.float_of_double (get3 computed) in
    calls_for (directededges Hill.tile) 32 Hill.log_after
    = [(3%nat, GetAll [a; b]);
       (3%nat, WeightedGrade (Hill.get_all [a; b]) (Cxx.double_of_uint32 8));
       (3%nat, SetMeanElevation 32
                 (if PrimFloat.eqb mean_elevation Hill.no_data_value
                  then Hill.kNoElevationData else mean_elevation))] ∧
    Hill.cache_after !! 32 = Some (mkEntry flat_bucket flat_bucket 0 0 0 0) ∧
    (∀ k dk, directededges Hill.tile !! k = Some dk →
       edgeinfo_offset dk = 32 →
       written <$> directededges Hill.tile_after !! k
       = Some (flat_bucket, 0%float, 0%float)) ∧
    mean_elevations Hill.tile_after !! 32
    = Some (if PrimFloat.eqb mean_elevation Hill.no_data_value
            then Hill.kNoElevationData else mean_elevation).
Proof.
  apply (short_edge_keeps_mean _ _ _ _ _ ∅ Hill.tile _ _ _ 3
           (Hill.edge 8 false false Hill.road true 32) hill_run).
  - reflexivity.
  - first_on_hill.
  - sampled_on_hill.
  - reflexivity.
Defined.

Lemma reverse_is_rerun_on_reversed_heights_witness :
  ∃ shape resampled interval e,
    shapes Hill.tile !! 0 = Some shape ∧
    sampling Hill.resample (Hill.edge 240 false false Hill.road true 0) shape
    = Some (resampled, interval) ∧
    let heights := Hill.get_all resampled in
    let forward_grades := Hill.weighted_grade heights interval in
    let reverse_grades := Hill.weighted_grade (rev heights) interval in
    calls_at 0 Hill.log_after
    = [(0%nat, GetAll resampled);
       (0%nat, WeightedGrade heights interval);
       (0%nat, WeightedGrade (rev heights) interval);
       (0%nat, SetMeanElevation 0
                 (stored_mean Hill.no_data_value Hill.kNoElevationData
                    forward_grades))] ∧
    Hill.cache_after !! 0 = Some e ∧
    grade_bucket (get0 reverse_grades) = Some (reverse_grade e) ∧
    reverse_max_up e = Cxx.float_of_double (get1 reverse_grades) ∧
    reverse_max_down e = Cxx.float_of_double (get2 reverse_grades) ∧
    grade_bucket (get0 forward_grades) = Some (forward_grade e) ∧
    forward_max_up e = Cxx.float_of_double (get1 forward_grades) ∧
    forward_max_down e = Cxx.float_of_double (get2 forward_grades) ∧
    (∀ k dk, directededges Hill.tile !! k = Some dk →
       edgeinfo_offset dk = 0 →
       written <$> directededges Hill.tile_after !! k
       = Some (select (de_forward dk) e)).
Proof.
  apply (reverse_is_rerun_on_reversed_heights _ _ _ _ _ ∅ Hill.tile _ _ _ 0
           (Hill.edge 240 false false Hill.road true 0) hill_run).
  - reflexivity.
  - first_on_hill.
  - sampled_on_hill.
  - cbn. lia.
Defined.

(** On the hill the reverse grade of the 240 m road is 0 where the forward
    grade is 5: the rerun on the reversed heights is not the negated forward
    grade. *)
Lemma reverse_grade_is_not_negated_forward :
  let heights := Hill.get_all [0; 60; 120; 180; 240] in
  get0 (Hill.weighted_grade heights 60) = 5%float ∧
  get0 (Hill.weighted_grade (rev heights) 60) = 0%float ∧
  PrimFloat.eqb (get0 (Hill.weighted_grade (rev heights) 60))
                (- get0 (Hill.weighted_grade heights 60)) = false.
Proof. cbv zeta. repeat split; vm_compute; reflexivity. Qed.

Lemma sampling_rule_witness :
  ∃ shape resampled interval rest,
    shapes Hill.tile !! 48 = Some shape ∧
    calls_for (directededges Hill.tile) 48 Hill.log_after
    = (4%nat, GetAll resampled)
      :: (4%nat, WeightedGrade (Hill.get_all resampled) interval) :: rest ∧
    count_calls is_GetAll rest = 0%nat ∧
    Forall (λ ic, ∀ heights i, ic.2 = WeightedGrade heights i → i = interval) rest ∧
    (300 < 180 ∨ true = true →
       ∃ a b, head shape = Some a ∧ last shape = Some b ∧
              resampled = [a; b] ∧ interval = Cxx.double_of_uint32 300) ∧
    (180 ≤ 300 → true = false →
       resampled = Hill.resample shape 60%float ∧ interval = 60%float).
Proof.
  apply (sampling_rule _ _ _ _ _ ∅ Hill.tile _ _ _ 4
           (Hill.edge 300 false true Hill.road false 48) hill_run).
  - reflexivity.
  - first_on_hill.
  - sampled_on_hill.
Defined.


(** The same tile again, the cache still holding the entries of the first
    pass. *)
Lemma cache_cleared_per_tile_witness :
  ∃ j dj shape e mean calls,
    (j ≤ 1)%nat ∧ directededges Hill.tile !! j = Some dj ∧
    edgeinfo_offset dj = 0 ∧
    shapes Hill.tile !! edgeinfo_offset dj = Some shape ∧
    cache_miss Hill.resample Hill.get_all Hill.weighted_grade
      Hill.no_data_value Hill.kNoElevationData dj shape
    = Some (e, mean, calls) ∧
    Hill.cache_after !! 0 = Some e ∧
    directededges Hill.tile_after !! 1%nat
    = Some (apply_entry e (Hill.edge 240 false false Hill.road false 0)).
Proof.
  assert (Hagain : Hill.single_tile Hill.cache_after Hill.tile
                   = Some (Hill.tile_after, Hill.cache_after, Hill.log_after))
    by (vm_compute; reflexivity).
  apply (proj2 (cache_cleared_per_tile Hill.resample Hill.get_all
                  Hill.weighted_grade Hill.no_data_value Hill.kNoElevationData
                  Hill.cache_after Hill.tile)
           Hill.tile_after Hill.cache_after Hill.log_after Hagain
           1%nat (Hill.edge 240 false false Hill.road false 0)).
  reflexivity.
Defined.

Lemma build_without_elevation_witness :
  let warned :=
    add_message (LOG_WARN "Elevation storage directory does not exist")
      Hill.world in
  Hill.build Hill.no_elevation_config [7; 9] Hill.world warned ∧
  tiles warned = Hill.dir ∧
  threads_started warned = 0%nat ∧
  messages warned
  = [LOG_WARN "Elevation storage directory does not exist"] ∧
  ∀ w', Hill.build Hill.no_elevation_config [7; 9] Hill.world w' → w' = warned.
Proof.
  apply (build_without_elevation Hill.resample Hill.get_all Hill.weighted_grade
           Hill.no_data_value Hill.kNoElevationData
           Hill.no_elevation_config [7; 9] Hill.world).
  left. reflexivity.
Defined.

(** Two threads on the hill directory: the first takes tile 7, the second
    takes tile 9 and stores it, the first stores tile 7, and both find the
    queue empty. *)
Lemma queue_drained_witness :
  ∃ p, Hill.pool_steps (start [7; 9] 2 Hill.dir) p ∧ joined p ∧
       tilequeue p = [] ∧ all_popped p ≡ₚ [7; 9] ∧
       all_processed p = all_popped p.
Proof.
  eexists.
  eassert (Hsteps : Hill.pool_steps (start [7; 9] 2 Hill.dir) _).
  { unfold Hill.pool_steps.
    eapply steps_front;
      [eapply step_pop with (k := 0%nat); reflexivity | simpl].
    eapply steps_front;
      [eapply step_pop with (k := 1%nat); reflexivity | simpl].
    eapply steps_front;
      [eapply step_tile with (k := 1%nat);
       [reflexivity | reflexivity | reflexivity | exact hill_flat_run] | simpl].
    eapply steps_front;
      [eapply step_tile with (k := 0%nat);
       [reflexivity | reflexivity | reflexivity | exact hill_run] | simpl].
    eapply steps_front;
      [eapply step_empty with (k := 0%nat); reflexivity | simpl].
    eapply steps_front;
      [eapply step_empty with (k := 1%nat); reflexivity | simpl].
    apply steps_refl. }
  match type of Hsteps with
  | Hill.pool_steps _ ?p => assert (Hjoined : joined p) by repeat constructor
  end.
  split; [exact Hsteps |]. split; [exact Hjoined |].
  apply (proj2 (proj2 (queue_drained _ _ _ _ _ _ _ _ _ Hsteps)));
    [lia | exact Hjoined].
Defined.

(** * More statements on the hill *)

Lemma hill_pool_run_in : Hill.pool_steps_in 6 (start [7; 9] 2 Hill.dir) Hill.pool_end.
Proof.
  unfold Hill.pool_steps_in, Hill.pool_end.
  eapply steps_in_front;
    [eapply step_pop with (k := 0%nat); reflexivity | simpl].
  eapply steps_in_front;
    [eapply step_pop with (k := 1%nat); reflexivity | simpl].
  eapply steps_in_front;
    [eapply step_tile with (k := 1%nat);
     [reflexivity | reflexivity | reflexivity | exact hill_flat_run] | simpl].
  eapply steps_in_front;
    [eapply step_tile with (k := 0%nat);
     [reflexivity | reflexivity | reflexivity | exact hill_run] | simpl].
  eapply steps_in_front;
    [eapply step_empty with (k := 0%nat); reflexivity | simpl].
  eapply steps_in_front;
    [eapply step_empty with (k := 1%nat); reflexivity | simpl].
  apply steps_in_O.
Qed.

Lemma hill_pool_run : Hill.pool_steps (start [7; 9] 2 Hill.dir) Hill.pool_end.
Proof. exact (steps_in_steps _ _ _ _ _ _ _ _ hill_pool_run_in). Qed.

Lemma hill_pool_joined : joined Hill.pool_end.
Proof. repeat constructor. Qed.

Lemma hill_pool_run_single :
  Hill.pool_steps (start [7; 9] 1 Hill.dir) Hill.pool_end_single.
Proof.
  unfold Hill.pool_steps, Hill.pool_end_single.
  eapply steps_front;
    [eapply step_pop with (k := 0%nat); reflexivity | simpl].
  eapply steps_front;
    [eapply step_tile with (k := 0%nat);
     [reflexivity | reflexivity | reflexivity | exact hill_run] | simpl].
  eapply steps_front;
    [eapply step_pop with (k := 0%nat); reflexivity | simpl].
  eapply steps_front;
    [eapply step_tile with (k := 0%nat);
     [reflexivity | reflexivity | reflexivity
     | rewrite (single_tile_any_cache _ _ _ _ _ _ ∅); exact hill_flat_run]
    | simpl].
  eapply steps_front;
    [eapply step_empty with (k := 0%nat); reflexivity | simpl].
  apply steps_refl.
Qed.

Lemma hill_pool_joined_single : joined Hill.pool_end_single.
Proof. repeat constructor. Qed.

Lemma pass_keeps_inputs_witness :
  length (directededges Hill.tile_after) = length (directededges Hill.tile) ∧
  (∀ k dk, directededges Hill.tile !! k = Some dk →
     ∃ dk', directededges Hill.tile_after !! k = Some dk' ∧ same_input dk dk') ∧
  shapes Hill.tile_after = shapes Hill.tile ∧
  has_elevation Hill.tile_after = true.
Proof. exact (pass_keeps_inputs _ _ _ _ _ ∅ Hill.tile _ _ _ hill_run). Defined.

Lemma cache_holds_the_offsets_witness :
  dom Hill.cache_after = offsets_of (directededges Hill.tile) ∧
  (size Hill.cache_after ≤ length (directededges Hill.tile))%nat ∧
  (size Hill.cache_after ≤ 2 * length (directededges Hill.tile))%nat.
Proof. exact (cache_holds_the_offsets _ _ _ _ _ ∅ Hill.tile _ _ _ hill_run). Defined.

Lemma mean_elevation_frame_witness :
  dom (mean_elevations Hill.tile_after)
  = dom (mean_elevations Hill.tile) ∪ offsets_of (directededges Hill.tile) ∧
  ∀ o, o ∉ offsets_of (directededges Hill.tile) →
    mean_elevations Hill.tile_after !! o = mean_elevations Hill.tile !! o.
Proof. exact (mean_elevation_frame _ _ _ _ _ ∅ Hill.tile _ _ _ hill_run). Defined.

Lemma pass_defined_iff_witness :
  ∃ shape, shapes Hill.tile !! 32 = Some shape ∧
           is_Some (cache_miss Hill.resample Hill.get_all Hill.weighted_grade
                      Hill.no_data_value Hill.kNoElevationData
                      (Hill.edge 8 false false Hill.road true 32) shape).
Proof.
  apply (proj1 (pass_defined_iff Hill.resample Hill.get_all Hill.weighted_grade
                  Hill.no_data_value Hill.kNoElevationData ∅ Hill.tile)
           (ex_intro _ _ hill_run) 3%nat
           (Hill.edge 8 false false Hill.road true 32)).
  - reflexivity.
  - first_on_hill.
Defined.

(** A tunnel without a shape; a driveway without a shape. *)
Lemma miss_defined_iff_witness :
  is_Some (cache_miss Hill.resample Hill.get_all Hill.weighted_grade
             Hill.no_data_value Hill.kNoElevationData
             (Hill.edge 5 true false Hill.road true 16) []) ∧
  ¬ is_Some (cache_miss Hill.resample Hill.get_all Hill.weighted_grade
               Hill.no_data_value Hill.kNoElevationData
               (Hill.edge 8 false false Hill.road true 32) []).
Proof.
  split.
  - apply (proj2 (miss_defined_iff Hill.resample Hill.get_all
                    Hill.weighted_grade Hill.no_data_value
                    Hill.kNoElevationData
                    (Hill.edge 5 true false Hill.road true 16) [])).
    left. left. reflexivity.
  - intros Hsome.
    apply (proj1 (miss_defined_iff Hill.resample Hill.get_all
                    Hill.weighted_grade Hill.no_data_value
                    Hill.kNoElevationData
                    (Hill.edge 8 false false Hill.road true 32) [])) in Hsome.
    destruct Hsome as [[H | H] | (r & iv & _ & Hne & _)];
      [discriminate H | discriminate H |].
    apply Hne; [left; reflexivity | reflexivity].
Defined.

Lemma pass_idempotent_witness :
  Hill.single_tile Hill.cache_after Hill.tile_after
  = Some (Hill.tile_after, Hill.cache_after, Hill.log_after).
Proof.
  exact (pass_idempotent _ _ _ _ _ ∅ Hill.tile _ _ _ Hill.cache_after hill_run).
Defined.


Lemma worker_keeps_queue_order_witness :
  [9] `sublist_of` [7; 9] ∧ [9] `prefix_of` [9] ∧
  (length [9] ≤ S (length [9]))%nat.
Proof.
  exact (worker_keeps_queue_order Hill.resample Hill.get_all Hill.weighted_grade
           Hill.no_data_value Hill.kNoElevationData
           [7; 9] 2 Hill.dir Hill.pool_end 1
           (mkWorker Returned Hill.flat_cache_after [9] [9])
           hill_pool_run eq_refl).
Defined.

Lemma run_length_witness :
  (6 = length (all_popped Hill.pool_end) + length (all_processed Hill.pool_end)
       + returned_count Hill.pool_end)%nat ∧
  (6 ≤ 2 * length [7; 9] + 2)%nat ∧
  ((1 ≤ 2)%nat → joined Hill.pool_end → 6%nat = (2 * length [7; 9] + 2)%nat).
Proof.
  exact (run_length Hill.resample Hill.get_all Hill.weighted_grade
           Hill.no_data_value Hill.kNoElevationData
           [7; 9] 2 Hill.dir 6 Hill.pool_end hill_pool_run_in).
Defined.

Lemma stored_tiles_witness :
  ∃ tile tile' cache' calls,
    Hill.dir !! 7 = Some tile ∧
    Hill.single_tile ∅ tile = Some (tile', cache', calls) ∧
    tile_dir Hill.pool_end !! 7 = Some tile' ∧
    has_elevation tile' = true.
Proof.
  apply (stored_tiles Hill.resample Hill.get_all Hill.weighted_grade
           Hill.no_data_value Hill.kNoElevationData
           [7; 9] 2 Hill.dir Hill.pool_end 7).
  - repeat constructor; set_solver.
  - lia.
  - exact hill_pool_run.
  - exact hill_pool_joined.
  - set_solver.
Defined.

Lemma tiles_independent_of_schedule_witness :
  tile_dir Hill.pool_end = tile_dir Hill.pool_end_single.
Proof.
  apply (tiles_independent_of_schedule Hill.resample Hill.get_all Hill.weighted_grade
           Hill.no_data_value Hill.kNoElevationData
           [7; 9] Hill.dir 2 1
           Hill.pool_end Hill.pool_end_single).
  - repeat constructor; set_solver.
  - lia.
  - lia.
  - exact hill_pool_run.
  - exact hill_pool_joined.
  - exact hill_pool_run_single.
  - exact hill_pool_joined_single.
Defined.

Lemma untouched_tiles_witness :
  tile_dir Hill.pool_end !! 8 = Hill.dir !! 8.
Proof.
  apply (untouched_tiles Hill.resample Hill.get_all Hill.weighted_grade
           Hill.no_data_value Hill.kNoElevationData
           [7; 9] 2 Hill.dir Hill.pool_end 8
           hill_pool_run).
  set_solver.
Defined.

Lemma hill_build :
  Hill.build Hill.elevation_config [7; 9] Hill.world_with_elevation
    Hill.world_after.
Proof.
  unfold Hill.build.
  apply (Build_done Hill.resample Hill.get_all Hill.weighted_grade
           Hill.no_data_value Hill.kNoElevationData
           Hill.elevation_config [7; 9]
           Hill.world_with_elevation [7; 9] Hill.pool_end).
  - reflexivity.
  - reflexivity.
  - exact hill_pool_run.
  - exact hill_pool_joined.
Qed.

Lemma build_with_elevation_witness :
  threads_started Hill.world_after = (0 + Z.to_nat 2)%nat ∧
  (1 ≤ Z.to_nat 2)%nat ∧
  (∀ n, Some 2 = Some n → 1 ≤ n → 2 = n) ∧
  (∃ ntiles : nat,
     messages Hill.world_after
     = [] ++
       [LOG_INFO ("Adding elevation to " +:+ pretty ntiles +:+
                  " tiles with " +:+ pretty 2 +:+ " threads...");
        LOG_INFO "Finished"]) ∧
  ([7; 9] ≠ [] →
   ∀ tile_id, tile_id ∉ [7; 9] →
     tiles Hill.world_after !! tile_id = Hill.dir !! tile_id).
Proof.
  exact (build_with_elevation Hill.resample Hill.get_all Hill.weighted_grade
           Hill.no_data_value Hill.kNoElevationData
           Hill.elevation_config [7; 9]
           Hill.world_with_elevation Hill.world_after eq_refl hill_build).
Defined.

Lemma hill_build_all :
  Hill.build Hill.elevation_config [] Hill.world_with_elevation
    Hill.world_after.
Proof.
  unfold Hill.build.
  apply (Build_done Hill.resample Hill.get_all Hill.weighted_grade
           Hill.no_data_value Hill.kNoElevationData
           Hill.elevation_config [] Hill.world_with_elevation [7; 9]
           Hill.pool_end).
  - reflexivity.
  - destruct (decide (@nil GraphId = [])) as [_ | Hne]; [| done].
    apply NoDup_Permutation.
    + repeat constructor; set_solver.
    + apply NoDup_elements.
    + intros id. rewrite elem_of_elements. unfold Hill.world_with_elevation.
      simpl. unfold Hill.dir. set_solver.
  - exact hill_pool_run.
  - exact hill_pool_joined.
Qed.

Lemma build_whole_dataset_witness :
  ∃ tile' cache' calls,
    Hill.single_tile ∅ Hill.tile = Some (tile', cache', calls) ∧
    tiles Hill.world_after !! 7 = Some tile'.
Proof.
  apply (build_whole_dataset Hill.resample Hill.get_all Hill.weighted_grade
           Hill.no_data_value Hill.kNoElevationData
           Hill.elevation_config Hill.world_with_elevation Hill.world_after
           7 Hill.tile eq_refl hill_build_all).
  reflexivity.
Defined.

Lemma later_edges_take_the_first_witness :
  ∃ tile2',
    Hill.single_tile ∅ Hill.odd_tile
    = Some (tile2', Hill.cache_after, Hill.log_after) ∧
    written <$> directededges tile2' = written <$> directededges Hill.tile_after ∧
    mean_elevations tile2' = mean_elevations Hill.tile_after.
Proof.
  apply (later_edges_take_the_first Hill.resample Hill.get_all
           Hill.weighted_grade Hill.no_data_value Hill.kNoElevationData
           ∅ ∅ Hill.tile Hill.odd_tile _ _ _ hill_run).
  - reflexivity.
  - reflexivity.
  - repeat constructor.
  - intros j dj dj2 Hj Hj2 Hfirst.
    destruct j as [| [| j]].
    + simpl in Hj, Hj2. simplify_eq. repeat split.
    + destruct (Hfirst 0%nat (Hill.edge 240 false false Hill.road true 0) dj);
        [lia | reflexivity | exact Hj |].
      simpl in Hj. by simplify_eq.
    + change (directededges Hill.odd_tile !! S (S j))
        with (directededges Hill.tile !! S (S j)) in Hj2.
      assert (dj2 = dj) as -> by congruence. repeat split.
Defined.

(** * Directed edges that are not the first of their EdgeInfo *)

Lemma hill_short_second_run :
  Hill.single_tile ∅ Hill.short_second_tile
  = Some (Hill.short_second_after, Hill.short_second_cache,
          Hill.short_second_log).
Proof. vm_compute. reflexivity. Qed.

(** An 8 m directed edge, neither tunnel nor ferry line, that comes second
    on the EdgeInfo of a 240 m one: it hits the cache, so it is written the
    reverse slopes 5 and -10 of the 240 m computation, the entry of its offset
    has forward bucket 9, and the mean elevation of the offset is the mean of
    the five resampled heights, above 6 m, not that of its two ends. *)
Lemma short_later_edge_is_not_flat :
  Hill.single_tile ∅ Hill.short_second_tile
  = Some (Hill.short_second_after, Hill.short_second_cache,
          Hill.short_second_log) ∧
  directededges Hill.short_second_tile !! 1%nat
  = Some (Hill.edge 8 false false Hill.road false 0) ∧
  ¬ skipped (Hill.edge 8 false false Hill.road false 0) ∧
  de_length (Hill.edge 8 false false Hill.road false 0) < kMinimumInterval ∧
  written <$> directededges Hill.short_second_after !! 1%nat
  = Some (6, 5%float, (-10)%float) ∧
  written <$> directededges Hill.short_second_after !! 1%nat
  ≠ Some (flat_bucket, 0%float, 0%float) ∧
  forward_grade <$> Hill.short_second_cache !! 0 = Some 9 ∧
  count_calls is_GetAll Hill.short_second_log = 1%nat ∧
  (∃ mean, mean_elevations Hill.short_second_after !! 0 = Some mean ∧
           PrimFloat.ltb 6 mean = true ∧
           PrimFloat.ltb
             (get3 (Hill.weighted_grade (Hill.get_all [0; 240])
                      (Cxx.double_of_uint32 8))) 6 = true).
Proof.
  split; [exact hill_short_second_run |]. split; [reflexivity |].
  split; [sampled_on_hill |]. split; [reflexivity |].
  assert (Hw : written <$> directededges Hill.short_second_after !! 1%nat
               = Some (6, 5%float, (-10)%float)) by (vm_compute; reflexivity).
  split; [exact Hw |]. split.
  { rewrite Hw. intros H.
    apply (f_equal (λ o, match o with
                         | Some (_, up, _) => PrimFloat.eqb up 0
                         | None => true
                         end)) in H.
    vm_compute in H. discriminate H. }
  split; [vm_compute; reflexivity |]. split; [vm_compute; reflexivity |].
  eexists. split; [vm_compute; reflexivity |].
  split; vm_compute; reflexivity.
Qed.

Lemma hill_odd_run :
  Hill.single_tile ∅ Hill.odd_tile
  = Some (Hill.odd_tile_after, Hill.cache_after, Hill.log_after).
Proof. vm_compute. reflexivity. Qed.

(** A 5 m tunnel that comes second on the EdgeInfo of a 240 m road: for its
    EdgeInfo the height service is queried once and the grade routine run
    twice, and the mean elevation stored for it is the sampled one, above
    6 m, not the 0 of the zero-initialised tuple. *)
Lemma later_tunnel_is_sampled :
  Hill.single_tile ∅ Hill.odd_tile
  = Some (Hill.odd_tile_after, Hill.cache_after, Hill.log_after) ∧
  directededges Hill.odd_tile !! 1%nat
  = Some (Hill.edge 5 true true Hill.road false 0) ∧
  skipped (Hill.edge 5 true true Hill.road false 0) ∧
  de_length (Hill.edge 5 true true Hill.road false 0) < kMinimumInterval ∧
  count_calls is_GetAll
    (calls_for (directededges Hill.odd_tile) 0 Hill.log_after) = 1%nat ∧
  count_calls is_WeightedGrade
    (calls_for (directededges Hill.odd_tile) 0 Hill.log_after) = 2%nat ∧
  (∃ mean, mean_elevations Hill.odd_tile_after !! 0 = Some mean ∧
           PrimFloat.ltb 6 mean = true) ∧
  mean_elevations Hill.odd_tile_after !! 0 ≠ Some (get3 zero_grades).
Proof.
  split; [exact hill_odd_run |]. split; [reflexivity |].
  split; [left; reflexivity |]. split; [reflexivity |].
  split; [vm_compute; reflexivity |]. split; [vm_compute; reflexivity |].
  split; [eexists; split; vm_compute; reflexivity |].
  intros H.
  assert (Hm : PrimFloat.ltb 6 (default 0%float
                 (mean_elevations Hill.odd_tile_after !! 0)) = true)
    by (vm_compute; reflexivity).
  rewrite H in Hm. vm_compute in Hm. discriminate Hm.
Qed.

(** * A list that names an id twice *)

Lemma hill_flat_rerun :
  Hill.single_tile Hill.flat_cache_after Hill.flat_tile_after
  = Some (Hill.flat_tile_after, Hill.flat_cache_after, Hill.flat_log_after).
Proof. vm_compute. reflexivity. Qed.

(** One thread on the list [9; 9]: it takes the id 9 twice and stores tile 9
    twice, the second time over the tile it stored the first time. *)
Lemma duplicate_id_is_processed_twice :
  Hill.pool_steps (start [9; 9] 1 Hill.dir) Hill.pool_end_twice ∧
  joined Hill.pool_end_twice ∧
  all_popped Hill.pool_end_twice = [9; 9] ∧
  all_processed Hill.pool_end_twice = [9; 9] ∧
  ¬ NoDup (all_processed Hill.pool_end_twice).
Proof.
  split.
  { unfold Hill.pool_steps, Hill.pool_end_twice.
    eapply steps_front;
      [eapply step_pop with (k := 0%nat); reflexivity | simpl].
    eapply steps_front;
      [eapply step_tile with (k := 0%nat);
       [reflexivity | reflexivity | reflexivity
       | rewrite (single_tile_any_cache _ _ _ _ _ _ ∅); exact hill_flat_run]
      | simpl].
    eapply steps_front;
      [eapply step_pop with (k := 0%nat); reflexivity | simpl].
    eapply steps_front;
      [eapply step_tile with (k := 0%nat);
       [reflexivity | reflexivity | reflexivity | exact hill_flat_rerun]
      | simpl].
    eapply steps_front;
      [eapply step_empty with (k := 0%nat); reflexivity | simpl].
    apply steps_refl. }
  split; [repeat constructor |].
  split; [reflexivity |]. split; [reflexivity |].
  change (all_processed Hill.pool_end_twice) with [9; 9].
  intros [Hnot _]%NoDup_cons. apply Hnot. set_solver.
Qed.
